(** * The book-recommendation engine of perpustakaan_sdn

    A shallow embedding of [backend/src/services/recommendation.ts]:
    the content-based similarity ranker ([getRecommendations],
    [getRecommendationsByTitle]) and the personalized scorer
    ([getPersonalizedRecommendations]).

    Conventions of the embedding.
    - A JavaScript [number] is an exact number: the similarity ranker is
      parametric in the number type (class [JSNumber]); the personalized
      scorer only adds, multiplies, divides and takes maxima, and is run on
      the rationals [Q].  Rounding of IEEE doubles and [NaN] are not modelled,
      and [topN] is an integer.
    - A JavaScript [string] is a [string] of 8-bit characters; [toLowerCase]
      and [trim] act on the ASCII range.
    - A [Map<K, number>] is a [gmap]; iteration order is not modelled.
    - [Date.now()] is a reading of an explicit clock; [console.warn] and
      [console.error] only write and are left out. *)

From Stdlib Require Import ZArith QArith Qminmax Reals Lra Lia.
From Stdlib Require Import Ascii String.
From stdpp Require Import gmap strings list fin_maps pretty sorting.

(** ** JavaScript strings *)

Module JSString.

Definition lower_char (c : ascii) : ascii :=
  let n := nat_of_ascii c in
  if (65 <=? n)%nat && (n <=? 90)%nat then ascii_of_nat (n + 32) else c.

(** [s.toLowerCase()] *)
Fixpoint toLowerCase (s : string) : string :=
  match s with
  | EmptyString => EmptyString
  | String c s' => String (lower_char c) (toLowerCase s')
  end.

Fixpoint trimStart (s : string) : string :=
  match s with
  | EmptyString => EmptyString
  | String c s' => if Ascii.is_space c then trimStart s' else s
  end.

(** [s.trim()] *)
Definition trim (s : string) : string :=
  String.rev (trimStart (String.rev (trimStart s))).

(** [s.split(sep)] for a one-character separator; the empty string
    splits into one empty part. *)
Fixpoint split (sep : ascii) (s : string) : list string :=
  match s with
  | EmptyString => [EmptyString]
  | String c s' =>
      if Ascii.eqb c sep then EmptyString :: split sep s'
      else match split sep s' with
           | part :: parts => String c part :: parts
           | [] => [String c EmptyString]
           end
  end.

(** [s.includes(sub)] *)
Fixpoint includes (s sub : string) : bool :=
  String.prefix sub s ||
  match s with
  | EmptyString => false
  | String _ s' => includes s' sub
  end.

End JSString.

(** ** JavaScript numbers, as far as the ranker uses them *)

Class JSNumber (num : Type) := {
  num_zero : num;
  num_one : num;
  (** the sign of [a - b] *)
  num_compare : num → num → comparison;
  num_compare_antisym : ∀ a b, num_compare b a = CompOpp (num_compare a b);
  num_compare_eq_trans : ∀ a b c,
    num_compare a b = Eq → num_compare b c = Eq → num_compare a c = Eq;
}.

(** Two numbers are tied when the comparator of the sort returns 0 on them. *)
Definition tied {num : Type} `{JSNumber num} (a b : num) : Prop :=
  num_compare a b = Eq.

Global Instance tied_dec {num : Type} `{JSNumber num} (a b : num) : Decision (tied a b).
Proof. unfold tied. solve_decision. Defined.

(** ** Arrays *)

Section Arrays.
Context {A : Type}.

(** [l.slice(0, n)] for an integer [n]: a negative [n] counts from the
    end of the array. *)
Definition slice0 (l : list A) (n : Z) : list A :=
  if (n <? 0)%Z
  then take (Z.to_nat (Z.max (Z.of_nat (length l) + n) 0)) l
  else take (Z.to_nat n) l.

(** [l.findIndex(p)], with [None] for [-1]. *)
Fixpoint findIndex (p : A → bool) (l : list A) : option nat :=
  match l with
  | [] => None
  | x :: l' => if p x then Some 0%nat else S <$> findIndex p l'
  end.

(** [l.find(p)] *)
Fixpoint find (p : A → bool) (l : list A) : option A :=
  match l with
  | [] => None
  | x :: l' => if p x then Some x else find p l'
  end.

(** [l.sort(cmp)].  [Array.prototype.sort] is stable, and for a
    consistent comparator every stable sort returns the same array;
    the model is the stable insertion sort.  [cmp a b = Lt] stands for a
    negative result of the comparator ([a] first), [Gt] for a positive one. *)
Section Sort.
Variable cmp : A → A → comparison.

Fixpoint sort_insert (x : A) (l : list A) : list A :=
  match l with
  | [] => [x]
  | y :: l' =>
      match cmp x y with
      | Gt => y :: sort_insert x l'
      | _ => x :: l
      end
  end.

Fixpoint sort (l : list A) : list A :=
  match l with
  | [] => []
  | x :: l' => sort_insert x (sort l')
  end.
End Sort.

End Arrays.

(** ** The catalog record

    [Book] is declared in [backend/src/types], which is not part of the
    sources at hand; the fields are the ones the engine reads.  An optional
    field is an [option]; [created_at] is the time stamp
    [new Date(created_at).getTime()] in milliseconds. *)

Record Book := {
  id : Z;
  title : string;
  author : string;
  synopsis : option string;
  genre_name : option string;
  view_count : option Q;
  created_at : option Z;
}.

(** [{...book, similarity}] *)
Record BookWithSimilarity (num : Type) := {
  bws_book : Book;
  similarity : num;
}.
Arguments bws_book {num} _.
Arguments similarity {num} _.

(** A ranking is in descending order: no entry is below its successor. *)
Definition descending {num : Type} `{JSNumber num}
    : relation (BookWithSimilarity num) :=
  λ r1 r2, num_compare (similarity r1) (similarity r2) ≠ Lt.

(** [!book.genre_name] is false: the field is present and not the empty
    string. *)
Definition has_genre (book : Book) : bool :=
  match genre_name book with
  | Some (String _ _) => true
  | _ => false
  end.

(** [genre_name.split(',').map(g => g.trim().toLowerCase())] *)
Definition genre_labels (g : string) : list string :=
  map (λ part, JSString.toLowerCase (JSString.trim part)) (JSString.split "," g).

(** [new Set()] filled by [add], read back by [Array.from]: first
    occurrences, in insertion order. *)
Definition Set_add (l : list string) (x : string) : list string :=
  if bool_decide (x ∈ l) then l else l ++ [x].

(** ** Content-based similarity *)

Section Similarity.
Context {num : Type} `{JSNumber num}.

(** [calculateTFIDF] and [cosineSimilarity] are imported from
    [backend/src/services/tfidf], which is not part of the sources at
    hand: the ranker is parametric in them. *)
Variable calculateTFIDF : list string → gmap nat (gmap string num).
Variable cosineSimilarity : gmap string num → gmap string num → num.

Definition createGenreVector (book : Book) (allGenres : list string) : list num :=
  if has_genre book then
    let bookGenres := genre_labels (default EmptyString (genre_name book)) in
    map (λ genre,
           if bool_decide (JSString.toLowerCase genre ∈ bookGenres)
           then num_one else num_zero) allGenres
  else replicate (length allGenres) num_zero.

Definition extractAllGenres (books : list Book) : list string :=
  let genreSet :=
    foldl (λ genreSet book,
             if has_genre book
             then foldl Set_add genreSet
                    (genre_labels (default EmptyString (genre_name book)))
             else genreSet) [] books in
  sort String.compare genreSet.

Definition combineVectors
    (titleVector : gmap string num) (genreVector : list num)
    (synopsisVector : gmap string num)
    (allTitleTerms allSynopsisTerms : gset string) : gmap string num :=
  let withTitle :=
    set_fold (λ term combined,
                <["title_" +:+ term := default num_zero (titleVector !! term)]> combined)
             (∅ : gmap string num) allTitleTerms in
  let withGenre :=
    foldl (λ combined '(index, value), <["genre_" +:+ pretty index := value]> combined)
          withTitle (imap pair genreVector) in
  set_fold (λ term combined,
              <["synopsis_" +:+ term := default num_zero (synopsisVector !! term)]> combined)
           withGenre allSynopsisTerms.

(** The terms that occur in some vector of a TF-IDF table. *)
Definition allTerms (tfidf : gmap nat (gmap string num)) : gset string :=
  map_fold (λ _ vector terms, dom vector ∪ terms) ∅ tfidf.

Definition validBooks (allBooks : list Book) : list Book :=
  filter (λ book, has_genre book) allBooks.

Definition titleTFIDF (valid : list Book) : gmap nat (gmap string num) :=
  calculateTFIDF (map title valid).

Definition synopsisTFIDF (valid : list Book) : gmap nat (gmap string num) :=
  calculateTFIDF (map (λ book, default EmptyString (synopsis book)) valid).

(** Steps 1 to 6 of [getRecommendations]. *)
Definition combinedVectors (valid : list Book) : list (gmap string num) :=
  let allGenres := extractAllGenres valid in
  let genreVectors := map (λ book, createGenreVector book allGenres) valid in
  let allTitleTerms := allTerms (titleTFIDF valid) in
  let allSynopsisTerms := allTerms (synopsisTFIDF valid) in
  imap (λ index _,
          let titleVec := default ∅ (titleTFIDF valid !! index) in
          let synopsisVec := default ∅ (synopsisTFIDF valid !! index) in
          let genreVec := default [] (genreVectors !! index) in
          combineVectors titleVec genreVec synopsisVec allTitleTerms allSynopsisTerms)
       valid.

(** Step 8: the loop over the valid books that skips [targetIndex]. *)
Definition similarities (valid : list Book) (targetIndex : nat)
    : list (BookWithSimilarity num) :=
  let vectors := combinedVectors valid in
  let targetVector := default ∅ (vectors !! targetIndex) in
  omap (λ x, x)
    (imap (λ i book,
             if bool_decide (i = targetIndex) then None
             else Some {| bws_book := book;
                          similarity := cosineSimilarity targetVector
                                          (default ∅ (vectors !! i)) |})
          valid).

(** [(a, b) => b.similarity - a.similarity] *)
Definition bySimilarityDesc (a b : BookWithSimilarity num) : comparison :=
  num_compare (similarity b) (similarity a).

(** The default [topN = 10] of the source is the call with [10]. *)
Definition getRecommendations (targetBook : Book) (allBooks : list Book) (topN : Z)
    : list (BookWithSimilarity num) :=
  let valid := validBooks allBooks in
  if (length valid =? 0)%nat then []
  else
    match findIndex (λ book, (id book =? id targetBook)%Z) valid with
    | None => []
    | Some targetIndex =>
        slice0 (sort bySimilarityDesc (similarities valid targetIndex)) topN
    end.

(** [book.title.toLowerCase().includes(title.toLowerCase())] *)
Definition title_matches (query : string) (book : Book) : bool :=
  JSString.includes (JSString.toLowerCase (title book)) (JSString.toLowerCase query).

Definition getRecommendationsByTitle (query : string) (allBooks : list Book) (topN : Z)
    : list (BookWithSimilarity num) :=
  match find (title_matches query) allBooks with
  | None => []
  | Some targetBook => getRecommendations targetBook allBooks topN
  end.

End Similarity.

(** The key universe of the combined vectors of one call: one key for a
    term of the title vocabulary, one for an index of the genre vocabulary,
    one for a term of the synopsis vocabulary. *)
Definition titleKeys (terms : gset string) : gset string :=
  set_map (λ term, "title_" +:+ term) terms.

Definition genreKeys (size : nat) : gset string :=
  list_to_set ((λ index : nat, "genre_" +:+ pretty index) <$> seq 0 size).

Definition synopsisKeys (terms : gset string) : gset string :=
  set_map (λ term, "synopsis_" +:+ term) terms.

(** The corpus-wide vocabulary of a TF-IDF table: the terms that have a
    weight in the vector of some document. *)
Definition inVocabulary {num : Type} (tfidf : gmap nat (gmap string num))
    (term : string) : Prop :=
  ∃ document weights, tfidf !! document = Some weights ∧ is_Some (weights !! term).

(** The query occurs in the text, letter case ignored. *)
Definition contains_ci (text query : string) : Prop :=
  ∃ before after,
    JSString.toLowerCase text = before +:+ JSString.toLowerCase query +:+ after.

(** ** Personalized scoring *)

Global Instance Q_JSNumber : JSNumber Q.
Proof.
  refine {| num_zero := 0%Q; num_one := 1%Q; num_compare := Qcompare |}.
  - intros a b. symmetry. apply Qcompare_antisym.
  - intros a b c Hab Hbc. apply Qeq_alt.
    transitivity b; apply Qeq_alt; assumption.
Defined.

(** The environment of a call: [Date.now()] is read once for every
    candidate that has a creation time stamp, and the k-th reading of a
    call is [clock k]. *)
Definition Clock := nat → Z.

Section Personalized.
Variable userHistoryGenres : gmap string Q.
Variable allBooks : list Book.

(** [Math.min(Math.max(topN, 10), 20)] *)
Definition normalizedTopN (topN : Z) : Z := Z.min (Z.max topN 10) 20.

Definition bookPopularity : gmap Z Q :=
  foldl (λ popularity book, <[id book := default 0%Q (view_count book)]> popularity)
        ∅ allBooks.

(** [Math.max(...Array.from(bookPopularity.values()), 1)] *)
Definition maxPopularity : Q :=
  map_fold (λ _ views best, Qmax views best) 1%Q bookPopularity.

(** [Array.from(userHistoryGenres.values()).reduce((a, b) => a + b, 0)] *)
Definition totalUserViews : Q :=
  map_fold (λ _ views total, (total + views)%Q) 0%Q userHistoryGenres.

Definition normalizedUserViews : Q := Qmax totalUserViews 1.

Definition genreMatchWeight (bookGenres : list string) : Q :=
  foldl (λ weight genre, (weight + default 0 (userHistoryGenres !! genre))%Q)
        0%Q bookGenres.

(** [(Date.now() - bookDate.getTime()) / (1000 * 60 * 60 * 24)] *)
Definition daysSinceCreated (now createdAt : Z) : Q :=
  (inject_Z (now - createdAt) / inject_Z (1000 * 60 * 60 * 24))%Q.

(** The body of the loop over the candidates; [now] is the reading of
    the clock, used only when the book has a creation time stamp. *)
Definition scoreBook (now : Z) (book : Book) : Q :=
  let score := 0%Q in
  let score :=
    if has_genre book then
      let bookGenres := genre_labels (default EmptyString (genre_name book)) in
      let normalizedGenreMatch :=
        (genreMatchWeight bookGenres / normalizedUserViews)%Q in
      (score + normalizedGenreMatch * 0.4)%Q
    else score in
  let popularity := default 0%Q (bookPopularity !! id book) in
  let normalizedPopularity := (popularity / maxPopularity)%Q in
  let score := (score + normalizedPopularity * 0.3)%Q in
  match created_at book with
  | Some createdAt =>
      let recencyScore := Qmax 0 (1 - daysSinceCreated now createdAt / 365) in
      (score + recencyScore * 0.3)%Q
  | None => score
  end.

(** [candidateBooks.forEach(...)], started after [reads] readings of
    the clock.  The source pushes [{book, score}] and renames [score] to
    [similarity] at the end; the model uses the final record throughout. *)
Fixpoint scoreBooks (clock : Clock) (reads : nat) (candidateBooks : list Book)
    : list (BookWithSimilarity Q) :=
  match candidateBooks with
  | [] => []
  | book :: rest =>
      {| bws_book := book; similarity := scoreBook (clock reads) book |}
      :: scoreBooks clock
           (match created_at book with Some _ => S reads | None => reads end) rest
  end.

End Personalized.

(** The default [topN = 10] of the source is the call with [10]. *)
Definition getPersonalizedRecommendations
    (clock : Clock) (userHistoryGenres : gmap string Q)
    (candidateBooks allBooks : list Book) (topN : Z)
    : list (BookWithSimilarity Q) :=
  if (length candidateBooks =? 0)%nat then []
  else slice0 (sort bySimilarityDesc
                 (scoreBooks userHistoryGenres allBooks clock 0 candidateBooks))
              (normalizedTopN topN).

(** The number of readings of the clock in one call. *)
Definition clockReads (candidateBooks : list Book) : nat :=
  length (filter (λ book, is_Some (created_at book)) candidateBooks).


(** *** The blend, in the words of the specification *)

Section Blend.
Variable userGenreProfile : gmap string Q.
Variable fullCorpus : list Book.

(** the sum of the profile weights over the labels of the item *)
Definition profileWeight (labels : list string) : Q :=
  foldr (λ label sum, (default 0 (userGenreProfile !! label) + sum)%Q) 0%Q labels.







Definition ageInDays (now createdAt : Z) : Q :=
  (inject_Z (now - createdAt) / 86400000)%Q.

Definition recencyScore (now : Z) (item : Book) : Q :=
  match created_at item with
  | Some createdAt => Qmax 0 (1 - ageInDays now createdAt / 365)
  | None => 0%Q
  end.

End Blend.

(** ** The entry points in their environment

    The three exported functions, called in an environment that
    consists of the clock.  Only [getPersonalizedRecommendations] reads it. *)

Inductive EngineCall :=
| CallRecommendations (targetBook : Book) (allBooks : list Book) (topN : Z)
| CallRecommendationsByTitle (query : string) (allBooks : list Book) (topN : Z)
| CallPersonalized (userHistoryGenres : gmap string Q)
    (candidateBooks allBooks : list Book) (topN : Z).

(** The readings of the clock a call consumes. *)
Definition callReads (call : EngineCall) : nat :=
  match call with
  | CallPersonalized _ candidateBooks _ _ => clockReads candidateBooks
  | _ => 0%nat
  end.

Section Entry.
Context {num : Type} `{JSNumber num}.
Variable calculateTFIDF : list string → gmap nat (gmap string num).
Variable cosineSimilarity : gmap string num → gmap string num → num.

Definition runCall (clock : Clock) (call : EngineCall)
    : list (BookWithSimilarity num) + list (BookWithSimilarity Q) :=
  match call with
  | CallRecommendations targetBook allBooks topN =>
      inl (getRecommendations calculateTFIDF cosineSimilarity targetBook allBooks topN)
  | CallRecommendationsByTitle query allBooks topN =>
      inl (getRecommendationsByTitle calculateTFIDF cosineSimilarity query allBooks topN)
  | CallPersonalized userHistoryGenres candidateBooks allBooks topN =>
      inr (getPersonalizedRecommendations clock userHistoryGenres
             candidateBooks allBooks topN)
  end.
End Entry.

(** ** The TF-IDF module, over the real numbers *)

Definition Rcompare (a b : R) : comparison :=
  if Rlt_dec a b then Lt else if Rlt_dec b a then Gt else Eq.

Global Instance R_JSNumber : JSNumber R.
Proof.
  refine {| num_zero := 0%R; num_one := 1%R; num_compare := Rcompare |};
    unfold Rcompare.
  - intros a b. destruct (Rlt_dec a b), (Rlt_dec b a); simpl; try reflexivity; lra.
  - intros a b c.
    destruct (Rlt_dec a b), (Rlt_dec b a), (Rlt_dec b c), (Rlt_dec c b);
      try discriminate.
    intros _ _. destruct (Rlt_dec a c), (Rlt_dec c a); try reflexivity; lra.
Defined.

Module Tfidf.

(** Modelled from the spec: the term extractor of
    [backend/src/services/tfidf], which is not part of the sources at
    hand.  A term is a maximal run of word characters of the lower-cased
    text; every other character separates terms. *)
Definition is_word_char (c : ascii) : bool :=
  let n := nat_of_ascii c in
  ((48 <=? n) && (n <=? 57) || (65 <=? n) && (n <=? 90)
   || (n =? 95) || (97 <=? n) && (n <=? 122))%nat.

Fixpoint terms_go (cur : option string) (s : string) : list string :=
  match s with
  | EmptyString => option_list (String.rev <$> cur)
  | String c s' =>
      if is_word_char c
      then terms_go (Some (from_option (String c) (String c EmptyString) cur)) s'
      else option_list (String.rev <$> cur) ++ terms_go None s'
  end.

Definition tokenize (text : string) : list string :=
  terms_go None (JSString.toLowerCase text).

Definition count_term (term : string) (terms : list string) : nat :=
  length (filter (λ t, t = term) terms).

(** term frequency: occurrences of the term over the number of terms of
    the document *)
Definition termFrequency (term : string) (terms : list string) : R :=
  (INR (count_term term terms) / INR (length terms))%R.

(** document frequency: the number of documents that contain the term *)
Definition documentFrequency (term : string) (docs : list (list string)) : nat :=
  length (filter (λ terms, term ∈ terms) docs).

(** inverse document frequency: [log(N / df)], with [df] floored at 1 *)
Definition inverseDocumentFrequency (term : string) (docs : list (list string)) : R :=
  ln (INR (length docs) / INR (Nat.max (documentFrequency term docs) 1)).

(** the weights of one document; a document without terms has the
    empty vector *)
Definition termVector (docs : list (list string)) (terms : list string)
    : gmap string R :=
  list_to_map
    (map (λ term, (term, (termFrequency term terms
                          * inverseDocumentFrequency term docs)%R)) terms).

(** Modelled from the spec: [calculateTFIDF] of
    [backend/src/services/tfidf], which is not part of the sources at
    hand.  One term vector per document, keyed by the position of the
    document, as [getRecommendations] reads the result. *)
Definition calculateTFIDF (documents : list string) : gmap nat (gmap string R) :=
  let docs := map tokenize documents in
  map_seq 0 (map (termVector docs) docs).

(** The sum of [f key x] over the entries of a vector. *)
Definition sumOver (f : string → R → R) (a : gmap string R) : R :=
  map_fold (λ key x sum, (sum + f key x)%R) 0%R a.

Definition dotProduct (a b : gmap string R) : R :=
  sumOver (λ key x, (x * default 0 (b !! key))%R) a.

Definition norm (a : gmap string R) : R :=
  sqrt (sumOver (λ _ x, (x * x)%R) a).

(** Modelled from the spec: [cosineSimilarity] of
    [backend/src/services/tfidf], which is not part of the sources at
    hand.  The dot product over the product of the Euclidean norms, and
    0 when a norm is 0. *)
Definition cosineSimilarity (a b : gmap string R) : R :=
  if Req_dec_T (norm a) 0 then 0%R
  else if Req_dec_T (norm b) 0 then 0%R
  else (dotProduct a b / (norm a * norm b))%R.

(** All components of the vector are non-negative. *)
Definition nonnegative (a : gmap string R) : Prop :=
  map_Forall (λ _ x, (0 <= x)%R) a.

End Tfidf.

(** ** Sample catalogs *)

Module Examples.

Definition sampleBook (i : Z) (t : string) (g : option string) : Book :=
  {| id := i; title := t; author := "anonim"; synopsis := None;
     genre_name := g; view_count := None; created_at := None |}.

Definition laskar : Book := sampleBook 1 "Laskar Pelangi" (Some "Fantasy").
Definition pemimpi : Book := sampleBook 2 "Sang Pemimpi" (Some "fantasy, fiksi").
Definition atlas : Book := sampleBook 3 "Atlas Sains" (Some "sains").
Definition catalog : list Book := [laskar; pemimpi; atlas].

(** Two records with one identifier. *)
Definition laskarReprint : Book := sampleBook 1 "Laskar Pelangi 2" (Some "fantasy").
Definition reprintCatalog : list Book := [laskar; laskarReprint].

(** Records without genre labels: the field is absent or empty. *)
Definition kamus : Book := sampleBook 4 "Kamus Besar" None.
Definition peta : Book := sampleBook 5 "Peta Dunia" (Some EmptyString).
Definition unlabelledCatalog : list Book := [kamus; peta].

(** The first title that contains "matematika" has no genre, and shares
    its identifier with a labelled record. *)
Definition dasar : Book := sampleBook 1 "Matematika Dasar" None.
Definition rakyat : Book := sampleBook 1 "Cerita Rakyat" (Some "fiksi").
Definition lanjut : Book := sampleBook 2 "Matematika Lanjut" (Some "sains").
Definition clashCatalog : list Book := [dasar; rakyat; lanjut].

(** The first title that contains "matematika" has no genre; the
    identifiers are distinct. *)
Definition mathCatalog : list Book :=
  [sampleBook 7 "Matematika Dasar" None; lanjut; atlas].

(** A reader of fantasy. *)
Definition fantasyReader : gmap string Q := {["fantasy" := 10%Q]}.

(** Candidates with creation time stamps. *)
Definition datedBook (i : Z) (t : string) (g : option string) (views : Q) (created : Z)
    : Book :=
  {| id := i; title := t; author := "anonim"; synopsis := None;
     genre_name := g; view_count := Some views; created_at := Some created |}.

Definition negeri : Book := datedBook 8 "Negeri 5 Menara" (Some "fiksi") 5 0.
Definition bumi : Book := datedBook 9 "Bumi" (Some "fantasy") 5 0.
Definition datedCatalog : list Book := [negeri; bumi].


(** Two clocks one day apart, and a clock that agrees with [midnight] on
    the first two readings. *)
Definition midnight : Clock := λ _, 0%Z.
Definition nextDay : Clock := λ _, 86400000%Z.
Definition lateClock : Clock := λ k, if (k <? 2)%nat then 0%Z else 86400000%Z.


End Examples.
From Stdlib Require Import Psatz.


(** ** Auxiliary notions for the properties of the engine *)

(** The genre labels an item carries; none when the genre field is absent
    or empty. *)
Definition bookLabels (book : Book) : list string :=
  if has_genre book then genre_labels (default EmptyString (genre_name book)) else [].

(** Strictly ascending in the order of [Array.prototype.sort()] on strings. *)
Definition strictlyAscending (l : list string) : Prop :=
  Sorted (λ a b, (a ?= b)%string = Lt) l.

(** The record without its creation time stamp. *)
Definition undated (book : Book) : Book :=
  {| id := id book; title := title book; author := author book;
     synopsis := synopsis book; genre_name := genre_name book;
     view_count := view_count book; created_at := None |}.

(** One year, in milliseconds. *)
Definition msPerYear : Z := 365 * (1000 * 60 * 60 * 24).

(** ** The recommendation routes

    The handlers of [GET /recommend], [GET /recommend/me] and
    [GET /recommend/user/:userId] in [backend/src/routes/recommend.ts],
    from the results of their queries on: the rows are arguments. *)

(** A row of the viewing history of one user. *)
Record HistoryEntry := {
  book_id : Z;
  views : Q;
  history_genre_name : string;
}.

(** [userHistory.forEach(entry => userGenrePrefs.set(genreName,
    (userGenrePrefs.get(genreName) || 0) + entry.views))] with
    [genreName = entry.genre_name.toLowerCase()] *)
Definition userGenrePrefs (userHistory : list HistoryEntry) : gmap string Q :=
  foldl (λ prefs entry,
           let genreName := JSString.toLowerCase (history_genre_name entry) in
           let currentCount := default 0%Q (prefs !! genreName) in
           <[genreName := (currentCount + views entry)%Q]> prefs)
        ∅ userHistory.

(** [new Set(userHistory.map(h => h.book_id))] *)
Definition viewedBookIds (userHistory : list HistoryEntry) : gset Z :=
  list_to_set (book_id <$> userHistory).

(** [{...book, view_count: book.view_count || 0}] *)
Definition withViewCount (book : Book) : Book :=
  {| id := id book; title := title book; author := author book;
     synopsis := synopsis book; genre_name := genre_name book;
     view_count := Some (default 0%Q (view_count book));
     created_at := created_at book |}.

(** [booksWithPopularity.filter(book => !viewedBookIds.has(book.id))] *)
Definition candidateBooksOf (userHistory : list HistoryEntry)
    (booksWithPopularity : list Book) : list Book :=
  filter (λ book, id book ∉ viewedBookIds userHistory) booksWithPopularity.

(** The answer for a user without history: the rows of the most viewed
    books with [similarity: (book.view_count || 0) / 100]. *)
Definition popularBooks (popularRows : list Book) : list (BookWithSimilarity Q) :=
  map (λ book, {| bws_book := book;
                  similarity := (default 0 (view_count book) / 100)%Q |})
      popularRows.

(** The [recommendations] of the two personalized routes. *)
Definition personalRecommendations (clock : Clock) (userHistory : list HistoryEntry)
    (popularRows allRows : list Book) : list (BookWithSimilarity Q) :=
  if (length userHistory =? 0)%nat then popularBooks popularRows
  else
    let booksWithPopularity := map withViewCount allRows in
    let candidateBooks := candidateBooksOf userHistory booksWithPopularity in
    getPersonalizedRecommendations clock (userGenrePrefs userHistory)
      candidateBooks booksWithPopularity 15.

(** The views of a list of history rows, added up. *)
Definition sumViews (entries : list HistoryEntry) : Q :=
  foldr (λ entry sum, (views entry + sum)%Q) 0%Q entries.

(** The answers of [GET /recommend?title=...]. *)
Inductive TitleAnswer (num : Type) :=
| TitleRequired
| NoBooksAvailable
| NoSimilarBooks
| Recommendations (targetBook : option Book)
    (recommendations : list (BookWithSimilarity num)).
Arguments TitleRequired {num}.
Arguments NoBooksAvailable {num}.
Arguments NoSimilarBooks {num}.
Arguments Recommendations {num} _ _.

Section TitleRoute.
Context {num : Type} `{JSNumber num}.
Variable calculateTFIDF : list string → gmap nat (gmap string num).
Variable cosineSimilarity : gmap string num → gmap string num → num.

(** [title] is the query parameter, absent or a string; [books] is the
    result of the query of all books. *)
Definition recommendByTitle (title : option string) (books : list Book)
    : TitleAnswer num :=
  match title with
  | None | Some EmptyString => TitleRequired
  | Some query =>
      if (length books =? 0)%nat then NoBooksAvailable
      else
        let recommendations :=
          getRecommendationsByTitle calculateTFIDF cosineSimilarity query books 10 in
        if (length recommendations =? 0)%nat then NoSimilarBooks
        else Recommendations (find (title_matches query) books) recommendations
  end.
End TitleRoute.

(** ** More sample data *)

Module MoreExamples.
Import Examples.

(** A title vector, a genre vector and vocabularies for one item. *)
Definition titleWeights : gmap string Q := {["laskar" := (1 # 2)%Q]}.
Definition titleVocabulary : gset string := {["laskar"; "pelangi"]}.
Definition genreEntries : list Q := [1%Q; 0%Q].
Definition synopsisVocabulary : gset string := {["desa"]}.

(** Ten fantasy titles and an atlas: one candidate more than the
    scorer returns for a count of ten. *)
Definition shelf : list Book :=
  ((λ i : nat, sampleBook (Z.of_nat i) "Buku Dongeng" (Some "fantasy")) <$> seq 10 10)
  ++ [atlas].

(** The first fantasy title and the atlas with their scores over [shelf]
    at time 0. *)
Definition dongengScored : BookWithSimilarity Q :=
  {| bws_book := sampleBook 10 "Buku Dongeng" (Some "fantasy");
     similarity := scoreBook fantasyReader shelf 0
                     (sampleBook 10 "Buku Dongeng" (Some "fantasy")) |}.
Definition atlasScored : BookWithSimilarity Q :=
  {| bws_book := atlas; similarity := scoreBook fantasyReader shelf 0 atlas |}.

(** A user who has viewed [laskar] three times. *)
Definition laskarEntry : HistoryEntry :=
  {| book_id := 1; views := 3; history_genre_name := "Fantasy" |}.
Definition laskarViews : list HistoryEntry := [laskarEntry].

(** [pemimpi] as the [/me] route scores it for that user at time 0. *)
Definition pemimpiScored : BookWithSimilarity Q :=
  {| bws_book := withViewCount pemimpi;
     similarity := scoreBook (userGenrePrefs laskarViews)
                     (withViewCount <$> catalog) 0 (withViewCount pemimpi) |}.

(** A TF-IDF table without terms and a similarity that is always 0: the
    simplest functions the ranker can be run with. *)
Definition noTerms : list string → gmap nat (gmap string Q) := λ _, ∅.
Definition zeroSimilarity : gmap string Q → gmap string Q → Q := λ _ _, 0%Q.

End MoreExamples.

(** * Properties *)

(** ** Arrays *)

Example slice0_counts_from_the_end : slice0 [1; 2; 3; 4]%Z (-1) = [1; 2; 3]%Z.
Proof. reflexivity. Qed.

Example sort_is_stable_on_pairs :
  sort (λ a b : Z * string, Z.compare a.1 b.1)
    [(2, "a"); (1, "b"); (2, "c"); (1, "d")]%Z
  = [(1, "b"); (1, "d"); (2, "a"); (2, "c")]%Z.
Proof. reflexivity. Qed.

Section ArrayFacts.
Context {A : Type}.
Implicit Types (l : list A) (n : Z).

Lemma slice0_prefix l n : slice0 l n `prefix_of` l.
Proof. unfold slice0. destruct (n <? 0)%Z; apply prefix_take. Qed.

Lemma slice0_nonneg l n : (0 ≤ n)%Z → slice0 l n = take (Z.to_nat n) l.
Proof.
  intros Hn. unfold slice0.
  destruct (Z.ltb_spec n 0) as [Hlt|_]; [lia | reflexivity].
Qed.

Lemma slice0_nil n : slice0 (@nil A) n = [].
Proof. unfold slice0. destruct (n <? 0)%Z; apply take_nil. Qed.

Lemma elem_of_slice0 l n x : x ∈ slice0 l n → x ∈ l.
Proof.
  intros Hx. destruct (slice0_prefix l n) as [k Hk].
  rewrite Hk. apply elem_of_app. by left.
Qed.

Lemma length_omap_le {B} (f : A → option B) l : (length (omap f l) ≤ length l)%nat.
Proof.
  induction l as [|x l IH]; csimpl; [done|].
  destruct (f x); csimpl; lia.
Qed.

Lemma findIndex_Some (p : A → bool) l i :
  findIndex p l = Some i →
  ∃ x, l !! i = Some x ∧ p x = true ∧
       ∀ j y, (j < i)%nat → l !! j = Some y → p y = false.
Proof.
  revert i. induction l as [|x l IH]; intros i; simpl; [done|].
  destruct (p x) eqn:Hpx.
  - intros [= <-]. exists x. split_and!; [done..|]. intros j y Hj. lia.
  - destruct (findIndex p l) as [k|] eqn:Hk; simpl; [|done].
    intros [= <-]. destruct (IH k eq_refl) as (y & Hy & Hpy & Hmin).
    exists y. split_and!; [done..|].
    intros [|j] z Hj; simpl; [by intros [= <-]|].
    intros Hz. apply (Hmin j); [lia | done].
Qed.

Lemma findIndex_None (p : A → bool) l :
  findIndex p l = None ↔ ∀ x, x ∈ l → p x = false.
Proof.
  induction l as [|x l IH]; simpl.
  - split; [intros _ x Hx; by apply elem_of_nil in Hx | done].
  - destruct (p x) eqn:Hpx.
    + split; [done|]. intros Hall. rewrite (Hall x) in Hpx; [done|]. left.
    + rewrite fmap_None, IH. split.
      * intros Hall y [->|Hy]%elem_of_cons; auto.
      * intros Hall y Hy. apply Hall. by right.
Qed.

Lemma find_first (p : A → bool) l i x :
  l !! i = Some x → p x = true →
  (∀ j y, (j < i)%nat → l !! j = Some y → p y = false) →
  find p l = Some x.
Proof.
  revert i. induction l as [|y l IH]; intros [|i]; simpl; try done.
  - intros [= ->] -> _. done.
  - intros Hx Hpx Hmin.
    rewrite (Hmin 0%nat y); [|lia|done].
    apply (IH i); [done..|].
    intros j z Hj Hz. apply (Hmin (S j)); [lia | done].
Qed.

Lemma find_None (p : A → bool) l :
  find p l = None ↔ ∀ x, x ∈ l → p x = false.
Proof.
  induction l as [|x l IH]; simpl.
  - split; [intros _ x Hx; by apply elem_of_nil in Hx | done].
  - destruct (p x) eqn:Hpx.
    + split; [done|]. intros Hall. rewrite (Hall x) in Hpx; [done|]. left.
    + rewrite IH. split.
      * intros Hall y [->|Hy]%elem_of_cons; auto.
      * intros Hall y Hy. apply Hall. by right.
Qed.

Section SortFacts.
Variable cmp : A → A → comparison.

Lemma sort_insert_perm x l : sort_insert cmp x l ≡ₚ x :: l.
Proof.
  induction l as [|y l IH]; simpl; [done|].
  destruct (cmp x y); try done.
  rewrite IH. apply Permutation_swap.
Qed.

Lemma sort_perm l : sort cmp l ≡ₚ l.
Proof.
  induction l as [|x l IH]; simpl; [done|].
  by rewrite sort_insert_perm, IH.
Qed.

Lemma sort_length l : length (sort cmp l) = length l.
Proof. by rewrite (sort_perm l). Qed.

Lemma elem_of_sort l x : x ∈ sort cmp l ↔ x ∈ l.
Proof. by rewrite (sort_perm l). Qed.

(** Stability: a class of elements that the comparator never moves past
    each other keeps its order. *)
Section Stable.
Variable P : A → Prop.
Context `{!∀ x, Decision (P x)}.
Hypothesis P_tied : ∀ x y, P x → P y → cmp x y ≠ Gt.

Lemma filter_sort_insert x l :
  filter P (sort_insert cmp x l) = filter P (x :: l).
Proof.
  induction l as [|y l IH]; simpl; [done|].
  destruct (cmp x y) eqn:Hxy; try done.
  rewrite filter_cons, IH, !filter_cons.
  destruct (decide (P y)) as [Hy|Hy], (decide (P x)) as [Hx|Hx]; try done.
  by destruct (P_tied x y Hx Hy).
Qed.

Lemma filter_sort l : filter P (sort cmp l) = filter P l.
Proof.
  induction l as [|x l IH]; simpl; [done|].
  by rewrite filter_sort_insert, !filter_cons, IH.
Qed.
End Stable.

(** The result is sorted for every relation that the comparator decides. *)
Section Ordered.
Variable before : relation A.
Hypothesis before_keep : ∀ x y, cmp x y ≠ Gt → before x y.
Hypothesis before_swap : ∀ x y, cmp x y = Gt → before y x.

Lemma HdRel_sort_insert y x l :
  before y x → HdRel before y l → HdRel before y (sort_insert cmp x l).
Proof.
  intros Hyx Hy. destruct l as [|z l]; simpl; [by constructor|].
  destruct (cmp x z); constructor; try done; by inversion Hy.
Qed.

Lemma Sorted_sort_insert x l : Sorted before l → Sorted before (sort_insert cmp x l).
Proof.
  induction 1 as [|y l Hl IH Hy]; simpl; [by repeat constructor|].
  destruct (cmp x y) eqn:Hxy.
  - repeat constructor; [done..|]. apply before_keep. by rewrite Hxy.
  - repeat constructor; [done..|]. apply before_keep. by rewrite Hxy.
  - constructor; [done|]. apply HdRel_sort_insert; [by apply before_swap | done].
Qed.

Lemma Sorted_sort l : Sorted before (sort cmp l).
Proof.
  induction l as [|x l IH]; simpl; [constructor | by apply Sorted_sort_insert].
Qed.
End Ordered.
End SortFacts.

Lemma Sorted_take (before : relation A) l k :
  Sorted before l → Sorted before (take k l).
Proof.
  intros Hl. revert k. induction Hl as [|x l Hl IH Hx]; intros [|k]; simpl;
    try constructor; [apply IH|].
  destruct Hx; destruct k; simpl; by constructor.
Qed.

Lemma Sorted_slice0 (before : relation A) l n :
  Sorted before l → Sorted before (slice0 l n).
Proof. intros Hl. unfold slice0. destruct (n <? 0)%Z; by apply Sorted_take. Qed.

End ArrayFacts.

(** ** Strings *)

Example split_labels : genre_labels "Fantasy, Sains ,fiksi" = ["fantasy"; "sains"; "fiksi"].
Proof. reflexivity. Qed.

Example split_empty : JSString.split "," EmptyString = [EmptyString].
Proof. reflexivity. Qed.

Example includes_inner : JSString.includes "laskar pelangi" "kar pel" = true.
Proof. reflexivity. Qed.

Example includes_missing : JSString.includes "laskar pelangi" "bumi" = false.
Proof. reflexivity. Qed.

Lemma prefix_spec (sub s : string) :
  String.prefix sub s = true ↔ ∃ rest, s = sub +:+ rest.
Proof.
  revert s. induction sub as [|c sub IH]; intros s; simpl.
  - split; [intros _; exists s; reflexivity | by destruct s].
  - destruct s as [|d s]; simpl.
    + split; [done | intros [rest Hrest]; discriminate].
    + destruct (ascii_dec c d) as [->|Hcd].
      * rewrite IH. split; intros [rest Hrest]; exists rest.
        -- by rewrite Hrest.
        -- by injection Hrest.
      * split; [done|]. intros [rest Hrest]. injection Hrest as -> _. done.
Qed.

Lemma includes_spec (s sub : string) :
  JSString.includes s sub = true ↔ ∃ before after, s = before +:+ sub +:+ after.
Proof.
  induction s as [|c s IH]; unfold JSString.includes; fold JSString.includes.
  - rewrite orb_false_r, prefix_spec. split.
    + intros [rest Hrest]. by exists EmptyString, rest.
    + intros ([|d before] & after & Hs); [by exists after | discriminate].
  - rewrite orb_true_iff, prefix_spec, IH. split.
    + intros [[rest Hrest] | (before & after & Hs)].
      * by exists EmptyString, rest.
      * exists (String c before), after. simpl. by rewrite Hs.
    + intros ([|d before] & after & Hs).
      * left. by exists after.
      * right. injection Hs as -> Hs. by exists before, after.
Qed.

Lemma title_matches_spec query book :
  title_matches query book = true ↔ contains_ci (title book) query.
Proof. apply includes_spec. Qed.

Lemma title_matches_false query book :
  title_matches query book = false ↔ ¬ contains_ci (title book) query.
Proof. rewrite <- title_matches_spec. by destruct (title_matches query book). Qed.

(** ** The similarity ranker *)

Section SimilarityFacts.
Context {num : Type} `{JSNumber num}.
Variable calculateTFIDF : list string → gmap nat (gmap string num).
Variable cosineSimilarity : gmap string num → gmap string num → num.

Abbreviation getRec := (getRecommendations calculateTFIDF cosineSimilarity).
Abbreviation getByTitle := (getRecommendationsByTitle calculateTFIDF cosineSimilarity).
Abbreviation sims := (similarities calculateTFIDF cosineSimilarity).
Abbreviation vectors := (combinedVectors calculateTFIDF).

Lemma elem_of_validBooks allBooks book :
  book ∈ validBooks allBooks ↔ book ∈ allBooks ∧ has_genre book = true.
Proof.
  unfold validBooks. rewrite list_elem_of_filter, Is_true_true. tauto.
Qed.

Lemma validBooks_none allBooks :
  (∀ book, book ∈ allBooks → has_genre book = false) → validBooks allBooks = [].
Proof.
  intros Hall. destruct (validBooks allBooks) as [|b l] eqn:Hv; [done|].
  assert (b ∈ validBooks allBooks) as [Hb Hg]%elem_of_validBooks
    by (rewrite Hv; left).
  rewrite (Hall b Hb) in Hg. done.
Qed.

Lemma elem_of_similarities valid i r :
  r ∈ sims valid i ↔
  ∃ j book, j ≠ i ∧ valid !! j = Some book ∧
    r = {| bws_book := book;
           similarity := cosineSimilarity (default ∅ (vectors valid !! i))
                           (default ∅ (vectors valid !! j)) |}.
Proof.
  unfold similarities. rewrite list_elem_of_omap. split.
  - intros (x & Hx & Hr).
    apply elem_of_lookup_imap in Hx as (j & book & -> & Hj).
    case_bool_decide; [done|]. injection Hr as <-. by exists j, book.
  - intros (j & book & Hne & Hj & ->). eexists. split.
    + apply elem_of_lookup_imap. exists j, book. split; [reflexivity | done].
    + simpl. by rewrite bool_decide_false.
Qed.

Lemma getRecommendations_found targetBook allBooks topN i :
  findIndex (λ book, (id book =? id targetBook)%Z) (validBooks allBooks) = Some i →
  getRec targetBook allBooks topN
  = slice0 (sort bySimilarityDesc (sims (validBooks allBooks) i)) topN.
Proof.
  intros Hi. unfold getRecommendations. rewrite Hi.
  destruct (validBooks allBooks); [done | reflexivity].
Qed.

Lemma getRecommendations_not_found targetBook allBooks topN :
  findIndex (λ book, (id book =? id targetBook)%Z) (validBooks allBooks) = None →
  getRec targetBook allBooks topN = [].
Proof.
  intros Hi. unfold getRecommendations. rewrite Hi.
  by destruct (length (validBooks allBooks) =? 0)%nat.
Qed.

(** Every other valid book is ranked when [topN] does not cut the list. *)
Lemma getRecommendations_ranks targetBook allBooks topN i j book :
  findIndex (λ book, (id book =? id targetBook)%Z) (validBooks allBooks) = Some i →
  (Z.of_nat (length (validBooks allBooks)) ≤ topN)%Z →
  validBooks allBooks !! j = Some book → j ≠ i →
  ∃ r, r ∈ getRec targetBook allBooks topN ∧ bws_book r = book.
Proof.
  intros Hi Hn Hj Hne. rewrite (getRecommendations_found _ _ _ i Hi).
  exists {| bws_book := book;
            similarity := cosineSimilarity
                            (default ∅ (vectors (validBooks allBooks) !! i))
                            (default ∅ (vectors (validBooks allBooks) !! j)) |}.
  split; [|reflexivity].
  rewrite slice0_nonneg by lia. rewrite take_ge.
  - apply elem_of_sort, elem_of_similarities. by exists j, book.
  - rewrite sort_length.
    assert (length (sims (validBooks allBooks) i) ≤ length (validBooks allBooks))%nat.
    { unfold similarities. etrans; [apply length_omap_le|]. by rewrite length_imap. }
    lia.
Qed.

(** C2 (amended).  When the genre-carrying items of the corpus have
    pairwise distinct identifiers, no item of the result of
    [getRecommendations] has the identifier of the target. *)
Theorem getRecommendations_excludes_target targetBook allBooks topN r :
  NoDup (id <$> validBooks allBooks) →
  r ∈ getRec targetBook allBooks topN →
  id (bws_book r) ≠ id targetBook.
Proof.
  intros Hnodup Hr.
  destruct (findIndex (λ book, (id book =? id targetBook)%Z) (validBooks allBooks))
    as [i|] eqn:Hi.
  - rewrite (getRecommendations_found _ _ _ i Hi) in Hr.
    apply elem_of_slice0, elem_of_sort, elem_of_similarities in Hr
      as (j & book & Hne & Hj & ->).
    apply findIndex_Some in Hi as (target & Hi & Hid & _).
    apply Z.eqb_eq in Hid. simpl. intros Heq. apply Hne.
    apply (NoDup_lookup (id <$> validBooks allBooks) j i (id targetBook) Hnodup).
    + by rewrite list_lookup_fmap, Hj, <- Heq.
    + by rewrite list_lookup_fmap, Hi, <- Hid.
  - rewrite getRecommendations_not_found in Hr by done.
    by apply elem_of_nil in Hr.
Qed.

Lemma getRecommendationsByTitle_delegates query allBooks topN i targetBook :
  allBooks !! i = Some targetBook →
  title_matches query targetBook = true →
  (∀ j book, (j < i)%nat → allBooks !! j = Some book →
             title_matches query book = false) →
  getByTitle query allBooks topN = getRec targetBook allBooks topN.
Proof.
  intros Hi Hmatch Hfirst. unfold getRecommendationsByTitle.
  by rewrite (find_first (title_matches query) allBooks i targetBook).
Qed.

(** C9.  [getRecommendationsByTitle] takes as target the first item, in
    the order of the corpus, whose title contains the query with letter
    case ignored, and returns what [getRecommendations] returns for this
    target, the same corpus and the same [topN]. *)
Theorem getRecommendationsByTitle_first_match query allBooks topN i targetBook :
  allBooks !! i = Some targetBook →
  contains_ci (title targetBook) query →
  (∀ j book, (j < i)%nat → allBooks !! j = Some book →
             ¬ contains_ci (title book) query) →
  getByTitle query allBooks topN = getRec targetBook allBooks topN.
Proof.
  intros Hi Hmatch Hfirst.
  apply (getRecommendationsByTitle_delegates _ _ _ i); [done | |].
  - by apply title_matches_spec.
  - intros j book Hj Hbook. apply title_matches_false. eauto.
Qed.

Lemma getRecommendationsByTitle_no_match query allBooks topN :
  (∀ book, book ∈ allBooks → ¬ contains_ci (title book) query) →
  getByTitle query allBooks topN = [].
Proof.
  intros Hnone. unfold getRecommendationsByTitle.
  assert (find (title_matches query) allBooks = None) as ->; [|done].
  apply find_None. intros book Hbook. apply title_matches_false. auto.
Qed.

Lemma getRecommendations_no_genre targetBook allBooks topN :
  (∀ book, book ∈ allBooks → has_genre book = false) →
  getRec targetBook allBooks topN = [].
Proof.
  intros Hall. unfold getRecommendations. by rewrite validBooks_none.
Qed.

Lemma getRecommendations_unknown_target targetBook allBooks topN :
  (∀ book, book ∈ allBooks → has_genre book = true → id book ≠ id targetBook) →
  getRec targetBook allBooks topN = [].
Proof.
  intros Hall. apply getRecommendations_not_found, findIndex_None.
  intros book [Hbook Hg]%elem_of_validBooks. apply Z.eqb_neq. auto.
Qed.

(** C5.  [getRecommendations] and [getRecommendationsByTitle] are total,
    and return the empty list for an empty corpus, for a corpus without
    genre labels, for a target identifier that no genre-carrying item
    has, and for a query that no title contains. *)
Theorem empty_results :
  (∀ targetBook topN, getRec targetBook [] topN = []) ∧
  (∀ query topN, getByTitle query [] topN = []) ∧
  (∀ targetBook allBooks topN,
     (∀ book, book ∈ allBooks → has_genre book = false) →
     getRec targetBook allBooks topN = []) ∧
  (∀ query allBooks topN,
     (∀ book, book ∈ allBooks → has_genre book = false) →
     getByTitle query allBooks topN = []) ∧
  (∀ targetBook allBooks topN,
     (∀ book, book ∈ allBooks → has_genre book = true → id book ≠ id targetBook) →
     getRec targetBook allBooks topN = []) ∧
  (∀ query allBooks topN,
     (∀ book, book ∈ allBooks → ¬ contains_ci (title book) query) →
     getByTitle query allBooks topN = []).
Proof.
  split_and!.
  - done.
  - done.
  - apply getRecommendations_no_genre.
  - intros query allBooks topN Hall. unfold getRecommendationsByTitle.
    destruct (find _ allBooks); [by apply getRecommendations_no_genre | done].
  - apply getRecommendations_unknown_target.
  - apply getRecommendationsByTitle_no_match.
Qed.

(** C10 (amended).  When the first item whose title contains the query
    has no genre labels, and the identifiers of the corpus are pairwise
    distinct, [getRecommendationsByTitle] returns the empty list, whatever
    the later items are. *)
Theorem getRecommendationsByTitle_target_without_genre
    query allBooks topN i targetBook :
  allBooks !! i = Some targetBook →
  contains_ci (title targetBook) query →
  (∀ j book, (j < i)%nat → allBooks !! j = Some book →
             ¬ contains_ci (title book) query) →
  has_genre targetBook = false →
  NoDup (id <$> allBooks) →
  getByTitle query allBooks topN = [].
Proof.
  intros Hi Hmatch Hfirst Hnone Hnodup.
  rewrite (getRecommendationsByTitle_delegates _ _ _ i targetBook).
  - apply getRecommendations_unknown_target.
    intros book [j Hj]%list_elem_of_lookup Hgenre Hid.
    assert (j = i) as ->.
    { apply (NoDup_lookup (id <$> allBooks) j i (id targetBook) Hnodup).
      - by rewrite list_lookup_fmap, Hj, <- Hid.
      - by rewrite list_lookup_fmap, Hi. }
    rewrite Hi in Hj. injection Hj as ->. congruence.
  - done.
  - by apply title_matches_spec.
  - intros j book Hj Hbook. apply title_matches_false. eauto.
Qed.

End SimilarityFacts.

(** ** The ranker on the sample catalogs *)

Section Samples.
Import Examples.

Abbreviation getRecR := (getRecommendations Tfidf.calculateTFIDF Tfidf.cosineSimilarity).
Abbreviation getByTitleR :=
  (getRecommendationsByTitle Tfidf.calculateTFIDF Tfidf.cosineSimilarity).

(** C2, as stated, fails on a corpus with a repeated identifier: only the
    first item with the identifier of the target is skipped. *)
Lemma getRecommendations_repeated_id :
  laskar ∈ reprintCatalog ∧
  ∃ r, r ∈ getRecR laskar reprintCatalog 10 ∧ id (bws_book r) = id laskar.
Proof.
  split; [left|].
  destruct (getRecommendations_ranks Tfidf.calculateTFIDF Tfidf.cosineSimilarity
              laskar reprintCatalog 10 0 1 laskarReprint) as (r & Hr & Hbook).
  - reflexivity.
  - vm_compute. discriminate.
  - reflexivity.
  - lia.
  - exists r. split; [done|]. by rewrite Hbook.
Qed.

Lemma getRecommendations_excludes_target_witness :
  NoDup (id <$> validBooks catalog) ∧
  ∀ r, r ∈ getRecR laskar catalog 10 → id (bws_book r) ≠ id laskar.
Proof.
  assert (NoDup (id <$> validBooks catalog)) as Hnodup.
  { apply (bool_decide_unpack (NoDup (id <$> validBooks catalog))). vm_compute. exact I. }
  split; [exact Hnodup|].
  intros r. apply getRecommendations_excludes_target. exact Hnodup.
Defined.

Lemma getRecommendationsByTitle_first_match_witness :
  catalog !! 1%nat = Some pemimpi ∧
  contains_ci (title pemimpi) "SANG" ∧
  (∀ j book, (j < 1)%nat → catalog !! j = Some book →
             ¬ contains_ci (title book) "SANG") ∧
  getByTitleR "SANG" catalog 10 = getRecR pemimpi catalog 10.
Proof.
  assert (contains_ci (title pemimpi) "SANG") as Hmatch.
  { apply title_matches_spec. reflexivity. }
  assert (∀ j book, (j < 1)%nat → catalog !! j = Some book →
                    ¬ contains_ci (title book) "SANG") as Hfirst.
  { intros [|j] book Hj; [|lia]. intros [= <-].
    apply title_matches_false. reflexivity. }
  split_and!; [reflexivity | exact Hmatch | exact Hfirst |].
  apply (getRecommendationsByTitle_first_match _ _ _ _ _ 1%nat);
    [reflexivity | exact Hmatch | exact Hfirst].
Defined.

Lemma empty_results_witness :
  getRecR laskar [] 10 = [] ∧
  getByTitleR "laskar" [] 10 = [] ∧
  ((∀ book, book ∈ unlabelledCatalog → has_genre book = false) ∧
   getRecR kamus unlabelledCatalog 10 = [] ∧
   getByTitleR "kamus" unlabelledCatalog 10 = []) ∧
  ((∀ book, book ∈ catalog → has_genre book = true → id book ≠ id kamus) ∧
   getRecR kamus catalog 10 = []) ∧
  ((∀ book, book ∈ catalog → ¬ contains_ci (title book) "kamus") ∧
   getByTitleR "kamus" catalog 10 = []).
Proof.
  destruct (empty_results Tfidf.calculateTFIDF Tfidf.cosineSimilarity)
    as (Hempty & Hempty' & Hnone & Hnone' & Hunknown & Hquery).
  assert (∀ book, book ∈ unlabelledCatalog → has_genre book = false) as Hun.
  { apply Forall_forall. repeat constructor. }
  assert (∀ book, book ∈ catalog → has_genre book = true → id book ≠ id kamus) as Hid.
  { apply (proj1 (Forall_forall (λ book, has_genre book = true → id book ≠ id kamus) _)).
    repeat constructor; discriminate. }
  assert (∀ book, book ∈ catalog → ¬ contains_ci (title book) "kamus") as Hq.
  { apply Forall_forall. repeat constructor; apply title_matches_false; reflexivity. }
  split_and!.
  - apply Hempty.
  - apply Hempty'.
  - exact Hun.
  - apply Hnone; exact Hun.
  - apply Hnone'; exact Hun.
  - exact Hid.
  - apply Hunknown; exact Hid.
  - exact Hq.
  - apply Hquery; exact Hq.
Defined.

(** C10, as stated, fails when a labelled item has the identifier of the
    unlabelled first match: that item is taken for the target. *)
Lemma getRecommendationsByTitle_clash :
  clashCatalog !! 0%nat = Some dasar ∧
  contains_ci (title dasar) "matematika" ∧
  has_genre dasar = false ∧
  getByTitleR "matematika" clashCatalog 10 ≠ [].
Proof.
  split_and!; [reflexivity | apply title_matches_spec; reflexivity | reflexivity |].
  rewrite (getRecommendationsByTitle_delegates _ _ _ _ _ 0%nat dasar);
    [| reflexivity | reflexivity | intros; lia].
  destruct (getRecommendations_ranks Tfidf.calculateTFIDF Tfidf.cosineSimilarity
              dasar clashCatalog 10 0 1 lanjut) as (r & Hr & _).
  - reflexivity.
  - vm_compute. discriminate.
  - reflexivity.
  - lia.
  - intros Hnil. rewrite Hnil in Hr. by apply elem_of_nil in Hr.
Qed.

Lemma getRecommendationsByTitle_target_without_genre_witness :
  mathCatalog !! 0%nat = Some (sampleBook 7 "Matematika Dasar" None) ∧
  contains_ci "Matematika Dasar" "matematika" ∧
  has_genre (sampleBook 7 "Matematika Dasar" None) = false ∧
  NoDup (id <$> mathCatalog) ∧
  getByTitleR "matematika" mathCatalog 10 = [].
Proof.
  assert (contains_ci "Matematika Dasar" "matematika") as Hmatch.
  { apply (title_matches_spec "matematika" (sampleBook 7 "Matematika Dasar" None)).
    reflexivity. }
  assert (NoDup (id <$> mathCatalog)) as Hnodup.
  { apply (bool_decide_unpack (NoDup (id <$> mathCatalog))). vm_compute. exact I. }
  split_and!; [reflexivity | exact Hmatch | reflexivity | exact Hnodup |].
  apply (getRecommendationsByTitle_target_without_genre _ _ _ _ _ 0%nat
           (sampleBook 7 "Matematika Dasar" None));
    [reflexivity | exact Hmatch | intros; lia | reflexivity | exact Hnodup].
Defined.

End Samples.

(** ** The genre vocabulary *)

Lemma elem_of_Set_add l x y : y ∈ Set_add l x ↔ y ∈ l ∨ y = x.
Proof.
  unfold Set_add. case_bool_decide as Hx.
  - split; [by left | intros [?| ->]; done].
  - rewrite elem_of_app, list_elem_of_singleton. done.
Qed.

Lemma NoDup_Set_add l x : NoDup l → NoDup (Set_add l x).
Proof.
  intros Hl. unfold Set_add. case_bool_decide as Hx; [done|].
  apply NoDup_app. split_and!; [done| |apply NoDup_singleton].
  intros y Hy ->%list_elem_of_singleton. done.
Qed.

Lemma elem_of_foldl_Set_add xs l y : y ∈ foldl Set_add l xs ↔ y ∈ l ∨ y ∈ xs.
Proof.
  revert l. induction xs as [|x xs IH]; intros l; simpl.
  - rewrite elem_of_nil. tauto.
  - rewrite IH, elem_of_Set_add, elem_of_cons. tauto.
Qed.

Lemma NoDup_foldl_Set_add xs l : NoDup l → NoDup (foldl Set_add l xs).
Proof.
  revert l. induction xs as [|x xs IH]; intros l Hl; simpl; [done|].
  by apply IH, NoDup_Set_add.
Qed.

(** The set that [extractAllGenres] fills, before it is sorted. *)
Lemma genreSet_spec books acc :
  let genreSet :=
    foldl (λ genreSet book,
             if has_genre book
             then foldl Set_add genreSet
                    (genre_labels (default EmptyString (genre_name book)))
             else genreSet) acc books in
  (NoDup acc → NoDup genreSet) ∧
  ∀ g, g ∈ genreSet ↔ g ∈ acc ∨ ∃ book, book ∈ books ∧ g ∈ bookLabels book.
Proof.
  revert acc. induction books as [|book books IH]; intros acc; simpl.
  - split; [done|]. intros g. split; [by left|].
    intros [?|(book & []%elem_of_nil & _)]; done.
  - destruct (IH (if has_genre book
                  then foldl Set_add acc
                         (genre_labels (default EmptyString (genre_name book)))
                  else acc)) as [Hnodup Hin].
    split.
    + intros Hacc. apply Hnodup.
      destruct (has_genre book); [by apply NoDup_foldl_Set_add | done].
    + intros g. rewrite Hin. unfold bookLabels at 2.
      setoid_rewrite elem_of_cons. split.
      * intros [Hg | (b & Hb & Hg)].
        -- destruct (has_genre book) eqn:Hgenre.
           ++ apply elem_of_foldl_Set_add in Hg as [?|?]; [by left|].
              right. exists book. split; [by left|].
              unfold bookLabels. by rewrite Hgenre.
           ++ by left.
        -- right. exists b. split; [by right | done].
      * intros [Hg | (b & [-> | Hb] & Hg)].
        -- left. destruct (has_genre book); [|done].
           apply elem_of_foldl_Set_add. by left.
        -- left. unfold bookLabels in Hg.
           destruct (has_genre book); [|by apply elem_of_nil in Hg].
           apply elem_of_foldl_Set_add. by right.
        -- right. by exists b.
Qed.

Lemma sorted_distinct_strict (l : list string) :
  Sorted (λ a b, (a ?= b)%string ≠ Gt) l → NoDup l → strictlyAscending l.
Proof.
  unfold strictlyAscending.
  induction 1 as [|x l Hl IH Hx]; intros Hnodup; [constructor|].
  apply NoDup_cons in Hnodup as [Hxl Hnodup].
  constructor; [by apply IH|].
  destruct Hx as [|y l Hxy]; constructor.
  destruct (x ?= y)%string eqn:Hcmp; [|done..].
  apply String.compare_eq_iff in Hcmp as ->. destruct Hxl. left.
Qed.

Lemma extractAllGenres_elem books g :
  g ∈ extractAllGenres books ↔ ∃ book, book ∈ books ∧ g ∈ bookLabels book.
Proof.
  unfold extractAllGenres.
  destruct (genreSet_spec books []) as [_ Hin]. simpl in Hin.
  rewrite elem_of_sort, Hin, elem_of_nil. tauto.
Qed.

Lemma extractAllGenres_NoDup books : NoDup (extractAllGenres books).
Proof.
  unfold extractAllGenres.
  destruct (genreSet_spec books []) as [Hnodup _]. simpl in Hnodup.
  rewrite (sort_perm String.compare). apply Hnodup, NoDup_nil_2.
Qed.

Lemma extractAllGenres_ascending books : strictlyAscending (extractAllGenres books).
Proof.
  apply sorted_distinct_strict; [|apply extractAllGenres_NoDup].
  unfold extractAllGenres. apply Sorted_sort; [done|].
  intros x y Hxy. rewrite String.compare_antisym, Hxy. done.
Qed.

(** ** The key universe of the combined vectors *)

Lemma dom_set_fold_insert {V : Type} (tag : string) (weight : string → V)
    (init : gmap string V) (terms : gset string) :
  dom (set_fold (λ term combined, <[tag +:+ term := weight term]> combined) init terms)
  = dom init ∪ set_map (λ term, tag +:+ term) terms.
Proof.
  apply (set_fold_ind_L (λ combined (seen : gset string),
           dom combined = dom init ∪ set_map (λ term, tag +:+ term) seen)).
  - by rewrite set_map_empty, (right_id_L ∅ (∪)).
  - intros term seen combined _ IH.
    rewrite dom_insert_L, IH, set_map_union_L, set_map_singleton_L.
    by rewrite !(assoc_L (∪)), (comm_L (∪) {[tag +:+ term]} (dom init)).
Qed.

Lemma dom_foldl_genre {V : Type} (genreVector : list V) (init : gmap string V) (k : nat) :
  dom (foldl (λ combined '(index, value), <["genre_" +:+ pretty index := value]> combined)
         init (imap (λ i, pair (k + i)%nat) genreVector))
  = dom init ∪
    list_to_set ((λ index : nat, "genre_" +:+ pretty index) <$> seq k (length genreVector)).
Proof.
  revert init k. induction genreVector as [|value rest IH]; intros init k.
  - simpl. by rewrite (right_id_L ∅ (∪)).
  - rewrite imap_cons. simpl.
    rewrite (imap_ext _ (λ i, pair (S k + i)%nat)).
    + rewrite IH, dom_insert_L, Nat.add_0_r.
      by rewrite !(assoc_L (∪)), (comm_L (∪) {["genre_" +:+ pretty k]} (dom init)).
    + intros i x _. simpl. f_equal. lia.
Qed.

Section KeyFacts.
Context {num : Type} `{JSNumber num}.
Variable calculateTFIDF : list string → gmap nat (gmap string num).

Abbreviation vectors := (combinedVectors calculateTFIDF).

(** The terms collected by step 5 are the vocabulary of the table. *)
Lemma elem_of_allTerms (tfidf : gmap nat (gmap string num)) term :
  term ∈ allTerms tfidf ↔ inVocabulary tfidf term.
Proof.
  unfold allTerms, inVocabulary.
  apply (map_fold_weak_ind (λ (terms : gset string) (table : gmap nat (gmap string num)),
           term ∈ terms ↔
           ∃ document weights, table !! document = Some weights ∧
                               is_Some (weights !! term))).
  - split; [by intros ?%elem_of_empty|]. by intros (document & weights & ? & _).
  - intros document weights table terms Hfresh IH.
    rewrite elem_of_union, elem_of_dom, IH. split.
    + intros [Hterm|(other & weights' & Hother & Hterm)].
      * exists document, weights. by rewrite lookup_insert_eq.
      * exists other, weights'. split; [|done].
        rewrite lookup_insert_ne; [done|]. intros ->. by rewrite Hfresh in Hother.
    + intros (other & weights' & Hother & Hterm).
      destruct (decide (document = other)) as [<-|Hne].
      * rewrite lookup_insert_eq in Hother. injection Hother as <-. by left.
      * rewrite lookup_insert_ne in Hother by done. right. by exists other, weights'.
Qed.

Lemma elem_of_titleKeys (terms : gset string) key :
  key ∈ titleKeys terms ↔ ∃ term, key = "title_" +:+ term ∧ term ∈ terms.
Proof. unfold titleKeys. apply elem_of_map. Qed.

Lemma elem_of_synopsisKeys (terms : gset string) key :
  key ∈ synopsisKeys terms ↔ ∃ term, key = "synopsis_" +:+ term ∧ term ∈ terms.
Proof. unfold synopsisKeys. apply elem_of_map. Qed.

Lemma elem_of_genreKeys (vocabulary : list string) key :
  key ∈ genreKeys (length vocabulary) ↔
  ∃ index label, key = "genre_" +:+ pretty index ∧ vocabulary !! index = Some label.
Proof.
  unfold genreKeys. rewrite elem_of_list_to_set, list_elem_of_fmap. split.
  - intros (index & -> & Hindex%elem_of_seq).
    destruct (lookup_lt_is_Some_2 vocabulary index) as [label Hlabel]; [lia|].
    by exists index, label.
  - intros (index & label & -> & Hlabel). exists index. split; [done|].
    apply elem_of_seq. apply lookup_lt_Some in Hlabel. lia.
Qed.

Lemma dom_combineVectors titleVector genreVector synopsisVector
    (allTitleTerms allSynopsisTerms : gset string) :
  dom (combineVectors titleVector genreVector synopsisVector
         allTitleTerms allSynopsisTerms)
  = titleKeys allTitleTerms ∪ genreKeys (length genreVector)
    ∪ synopsisKeys allSynopsisTerms.
Proof.
  unfold combineVectors, titleKeys, genreKeys, synopsisKeys.
  rewrite (dom_set_fold_insert "synopsis_"
             (λ term, default num_zero (synopsisVector !! term))).
  f_equal.
  rewrite (dom_foldl_genre genreVector _ 0).
  rewrite (dom_set_fold_insert "title_"
             (λ term, default num_zero (titleVector !! term))).
  by rewrite dom_empty_L, (left_id_L ∅ (∪)).
Qed.

Lemma length_createGenreVector book allGenres :
  length (createGenreVector book allGenres) = length allGenres.
Proof.
  unfold createGenreVector.
  destruct (has_genre book); [apply length_map | apply length_replicate].
Qed.

Lemma lookup_combinedVectors valid i book :
  valid !! i = Some book →
  vectors valid !! i
  = Some (combineVectors
            (default ∅ (titleTFIDF calculateTFIDF valid !! i))
            (createGenreVector book (extractAllGenres valid))
            (default ∅ (synopsisTFIDF calculateTFIDF valid !! i))
            (allTerms (titleTFIDF calculateTFIDF valid))
            (allTerms (synopsisTFIDF calculateTFIDF valid))).
Proof.
  intros Hi. unfold combinedVectors.
  rewrite list_lookup_imap, Hi. simpl. do 2 f_equal.
  by rewrite list_lookup_fmap, Hi.
Qed.

Lemma size_set_map_app (tag : string) (terms : gset string) :
  size (set_map (C := gset string) (D := gset string) (λ term, tag +:+ term) terms)
  = size terms.
Proof.
  induction terms as [|term terms Hterm IH] using set_ind_L.
  - by rewrite set_map_empty, !size_empty.
  - rewrite set_map_union_L, set_map_singleton_L.
    rewrite !size_union, !size_singleton, IH; [done| set_solver |].
    intros key ->%elem_of_singleton (term' & Heq & Hin)%elem_of_map.
    apply (inj (String.app tag)) in Heq. by subst.
Qed.

Lemma size_genreKeys n : size (genreKeys n) = n.
Proof.
  unfold genreKeys. rewrite size_list_to_set, length_fmap, length_seq; [done|].
  apply NoDup_fmap_2; [|apply NoDup_seq].
  intros i j Hij. apply (inj (String.app "genre_")) in Hij. by apply (inj pretty).
Qed.

Lemma keys_disjoint (titleTerms synopsisTerms : gset string) n :
  titleKeys titleTerms ## genreKeys n ∧
  (titleKeys titleTerms ∪ genreKeys n) ## synopsisKeys synopsisTerms.
Proof.
  unfold titleKeys, genreKeys, synopsisKeys. split.
  - intros key (t & -> & _)%elem_of_map Hg.
    apply elem_of_list_to_set, list_elem_of_fmap in Hg as (i & Hi & _).
    discriminate Hi.
  - intros key Hkey (s & -> & _)%elem_of_map.
    apply elem_of_union in Hkey as [(t & Ht & _)%elem_of_map | Hg].
    + discriminate Ht.
    + apply elem_of_list_to_set, list_elem_of_fmap in Hg as (i & Hi & _).
      discriminate Hi.
Qed.

(** C6.  In one call, the combined vector of every valid item has the same
    key set: a title key for every term of the title vocabulary, a genre
    key for every index of the genre vocabulary, and a synopsis key for
    every term of the synopsis vocabulary, all distinct.  The title
    vocabulary consists of the terms that have a weight in the TF-IDF vector
    of the title of some valid item, the synopsis vocabulary likewise for
    the synopses, and the genre vocabulary is the strictly ascending list
    of the genre labels of the valid items; a key is in the vector exactly
    when it is the tagged term or index of one of them. *)
Theorem combined_vectors_share_keys valid i book :
  valid !! i = Some book →
  ∃ vector,
    vectors valid !! i = Some vector ∧
    dom vector
    = titleKeys (allTerms (titleTFIDF calculateTFIDF valid))
      ∪ genreKeys (length (extractAllGenres valid))
      ∪ synopsisKeys (allTerms (synopsisTFIDF calculateTFIDF valid)) ∧
    size (dom vector)
    = (size (allTerms (titleTFIDF calculateTFIDF valid))
       + length (extractAllGenres valid)
       + size (allTerms (synopsisTFIDF calculateTFIDF valid)))%nat ∧
    (∀ term, term ∈ allTerms (titleTFIDF calculateTFIDF valid) ↔
             inVocabulary (calculateTFIDF (map title valid)) term) ∧
    (∀ term, term ∈ allTerms (synopsisTFIDF calculateTFIDF valid) ↔
             inVocabulary
               (calculateTFIDF
                  (map (λ other, default EmptyString (synopsis other)) valid)) term) ∧
    strictlyAscending (extractAllGenres valid) ∧
    (∀ label, label ∈ extractAllGenres valid ↔
              ∃ other, other ∈ valid ∧ label ∈ bookLabels other) ∧
    (∀ key, key ∈ dom vector ↔
       (∃ term, key = "title_" +:+ term ∧
                inVocabulary (calculateTFIDF (map title valid)) term) ∨
       (∃ index label, key = "genre_" +:+ pretty index ∧
                       extractAllGenres valid !! index = Some label) ∨
       (∃ term, key = "synopsis_" +:+ term ∧
                inVocabulary
                  (calculateTFIDF
                     (map (λ other, default EmptyString (synopsis other)) valid))
                  term)).
Proof.
  intros Hi. eexists. split; [by apply lookup_combinedVectors|].
  rewrite dom_combineVectors, length_createGenreVector.
  split_and!.
  - done.
  - destruct (keys_disjoint (allTerms (titleTFIDF calculateTFIDF valid))
                (allTerms (synopsisTFIDF calculateTFIDF valid))
                (length (extractAllGenres valid))) as [Htg Hs].
    rewrite !size_union by done.
    unfold titleKeys, synopsisKeys. by rewrite !size_set_map_app, size_genreKeys.
  - intros term. apply elem_of_allTerms.
  - intros term. apply elem_of_allTerms.
  - apply extractAllGenres_ascending.
  - apply extractAllGenres_elem.
  - intros key.
    rewrite !elem_of_union, elem_of_titleKeys, elem_of_genreKeys, elem_of_synopsisKeys.
    setoid_rewrite elem_of_allTerms. unfold titleTFIDF, synopsisTFIDF. tauto.
Qed.

End KeyFacts.

Lemma combined_vectors_share_keys_witness :
  validBooks Examples.catalog !! 0%nat = Some Examples.laskar ∧
  validBooks Examples.catalog !! 2%nat = Some Examples.atlas ∧
  ∃ first third,
    combinedVectors Tfidf.calculateTFIDF (validBooks Examples.catalog) !! 0%nat
    = Some first ∧
    combinedVectors Tfidf.calculateTFIDF (validBooks Examples.catalog) !! 2%nat
    = Some third ∧
    dom first = dom third ∧
    size (dom third) = (6 + 3 + 0)%nat ∧
    "title_" +:+ "laskar" ∈ dom third ∧
    "title_" +:+ "sains" ∈ dom first ∧
    "genre_" +:+ pretty 2%nat ∈ dom first ∧
    extractAllGenres (validBooks Examples.catalog) = ["fantasy"; "fiksi"; "sains"].
Proof.
  assert (validBooks Examples.catalog !! 0%nat = Some Examples.laskar) as Hfirst
    by reflexivity.
  assert (validBooks Examples.catalog !! 2%nat = Some Examples.atlas) as Hthird
    by reflexivity.
  split; [exact Hfirst|]. split; [exact Hthird|].
  destruct (combined_vectors_share_keys Tfidf.calculateTFIDF _ 0%nat Examples.laskar Hfirst)
    as (first & Hfirst_vector & Hfirst_dom & _ & _ & _ & _ & _ & Hfirst_keys).
  destruct (combined_vectors_share_keys Tfidf.calculateTFIDF _ 2%nat Examples.atlas Hthird)
    as (third & Hthird_vector & Hthird_dom & Hthird_size & _ & _ & _ & _ & Hthird_keys).
  exists first, third. split_and!.
  - exact Hfirst_vector.
  - exact Hthird_vector.
  - by rewrite Hfirst_dom, Hthird_dom.
  - rewrite Hthird_size. reflexivity.
  - apply Hthird_keys. left. exists "laskar". split; [reflexivity|].
    exists 0%nat. eexists. split; [reflexivity|]. eexists. reflexivity.
  - apply Hfirst_keys. left. exists "sains". split; [reflexivity|].
    exists 2%nat. eexists. split; [reflexivity|]. eexists. reflexivity.
  - apply Hfirst_keys. right. left. exists 2%nat, "sains". split; reflexivity.
  - reflexivity.
Defined.

(** ** Stability of the two rankings *)

Section OrderFacts.
Context {A : Type}.

Lemma filter_sublist (P : A → Prop) `{!∀ x, Decision (P x)} (l1 l2 : list A) :
  l1 `sublist_of` l2 → filter P l1 `sublist_of` filter P l2.
Proof.
  induction 1 as [|x l1 l2 _ IH|x l1 l2 _ IH]; [done| |].
  - rewrite !filter_cons. destruct (decide (P x)); [by constructor | done].
  - rewrite filter_cons. destruct (decide (P x)); [by constructor | done].
Qed.

(** From the order of a class to the order of two of its members. *)
Lemma tied_pair_order (P : A → Prop) `{!∀ x, Decision (P x)} (out inp : list A) x y :
  filter P out `prefix_of` filter P inp →
  P x → P y → [x; y] `sublist_of` out → [x; y] `sublist_of` inp.
Proof.
  intros Hpre Hx Hy Hout.
  apply (filter_sublist P) in Hout.
  rewrite !filter_cons, filter_nil in Hout.
  rewrite !decide_True in Hout by done.
  etrans; [exact Hout|]. etrans; [|apply (sublist_filter P)].
  destruct Hpre as [rest ->]. by apply sublist_inserts_r.
Qed.

Lemma filter_slice0_sort (cmp : A → A → comparison) (P : A → Prop)
    `{!∀ x, Decision (P x)} (l : list A) n :
  (∀ x y, P x → P y → cmp x y ≠ Gt) →
  filter P (slice0 (sort cmp l) n) `prefix_of` filter P l.
Proof.
  intros Htied. rewrite <- (filter_sort cmp P Htied l).
  destruct (slice0_prefix (sort cmp l) n) as [rest Hrest].
  rewrite Hrest at 2. rewrite filter_app. by eexists.
Qed.
End OrderFacts.

Section RankingFacts.
Context {num : Type} `{JSNumber num}.
Variable calculateTFIDF : list string → gmap nat (gmap string num).
Variable cosineSimilarity : gmap string num → gmap string num → num.

Abbreviation getRec := (getRecommendations calculateTFIDF cosineSimilarity).
Abbreviation sims := (similarities calculateTFIDF cosineSimilarity).

Lemma num_compare_refl {N : Type} `{JSNumber N} (a : N) : num_compare a a = Eq.
Proof.
  pose proof (num_compare_antisym a a) as Hanti.
  by destruct (num_compare a a).
Qed.

Lemma num_compare_eq_sym {N : Type} `{JSNumber N} (a b : N) :
  num_compare a b = Eq → num_compare b a = Eq.
Proof. intros Hab. by rewrite num_compare_antisym, Hab. Qed.

Lemma tied_never_swapped {N : Type} `{JSNumber N} (score : N)
    (x y : BookWithSimilarity N) :
  tied (similarity x) score → tied (similarity y) score → bySimilarityDesc x y ≠ Gt.
Proof.
  unfold tied, bySimilarityDesc. intros Hx Hy.
  rewrite (num_compare_eq_trans _ score _ Hy (num_compare_eq_sym _ _ Hx)). done.
Qed.


Lemma books_of_indexed_sublist {N : Type}
    (f : nat → Book → option (BookWithSimilarity N)) (l : list Book) :
  (∀ j book r, f j book = Some r → bws_book r = book) →
  bws_book <$> omap (λ x, x) (imap f l) `sublist_of` l.
Proof.
  revert f. induction l as [|book l IH]; intros f Hf; [done|].
  rewrite imap_cons. csimpl.
  destruct (f 0%nat book) as [r|] eqn:Hr; csimpl.
  - rewrite (Hf _ _ _ Hr). constructor. apply IH. intros j b. apply Hf.
  - constructor. apply IH. intros j b. apply Hf.
Qed.

Lemma similarities_in_corpus_order allBooks i :
  bws_book <$> sims (validBooks allBooks) i `sublist_of` allBooks.
Proof.
  etrans; [|apply (sublist_filter (λ book, has_genre book))].
  apply books_of_indexed_sublist. intros j book r.
  case_bool_decide; [done|]. by intros [= <-].
Qed.

Lemma scoreBooks_books prof allBooks clock reads candidateBooks :
  bws_book <$> scoreBooks prof allBooks clock reads candidateBooks = candidateBooks.
Proof.
  revert reads. induction candidateBooks as [|book rest IH]; intros reads; [done|].
  simpl. by rewrite IH.
Qed.

Lemma length_scoreBooks prof allBooks clock reads candidateBooks :
  length (scoreBooks prof allBooks clock reads candidateBooks) = length candidateBooks.
Proof. rewrite <- (length_fmap bws_book). by rewrite scoreBooks_books. Qed.

Lemma bySimilarityDesc_keep {N : Type} `{JSNumber N} (x y : BookWithSimilarity N) :
  bySimilarityDesc x y ≠ Gt → descending x y.
Proof.
  unfold bySimilarityDesc, descending. rewrite (num_compare_antisym (similarity x)).
  by destruct (num_compare (similarity x) (similarity y)).
Qed.

Lemma bySimilarityDesc_swap {N : Type} `{JSNumber N} (x y : BookWithSimilarity N) :
  bySimilarityDesc x y = Gt → descending y x.
Proof. unfold bySimilarityDesc, descending. by intros ->. Qed.

(** Both rankings are in descending order. *)
Lemma rankings_descending :
  (∀ targetBook allBooks topN, Sorted descending (getRec targetBook allBooks topN)) ∧
  (∀ clock prof candidateBooks allBooks topN,
     Sorted descending
       (getPersonalizedRecommendations clock prof candidateBooks allBooks topN)).
Proof.
  split.
  - intros targetBook allBooks topN. unfold getRecommendations.
    destruct (length (validBooks allBooks) =? 0)%nat; [constructor|].
    destruct (findIndex _ _); [|constructor].
    apply Sorted_slice0, Sorted_sort;
      [apply bySimilarityDesc_keep | apply bySimilarityDesc_swap].
  - intros clock prof candidateBooks allBooks topN.
    unfold getPersonalizedRecommendations.
    destruct (length candidateBooks =? 0)%nat; [constructor|].
    apply Sorted_slice0, Sorted_sort;
      [apply bySimilarityDesc_keep | apply bySimilarityDesc_swap].
Qed.

(** C8.  Entries of equal similarity, respectively of equal score, keep
    the order they have in the corpus, respectively in the candidate pool:
    the entries tied with any given value are, in the result, an initial
    part of those entries in input order, and of two tied entries the one
    that comes first in the result comes first in the input. *)
Theorem stable_tie_break :
  (∀ targetBook allBooks topN i score,
     findIndex (λ book, (id book =? id targetBook)%Z) (validBooks allBooks) = Some i →
     filter (λ r, tied (similarity r) score) (getRec targetBook allBooks topN)
     `prefix_of` filter (λ r, tied (similarity r) score) (sims (validBooks allBooks) i)) ∧
  (∀ targetBook allBooks topN r1 r2,
     [r1; r2] `sublist_of` getRec targetBook allBooks topN →
     tied (similarity r1) (similarity r2) →
     [bws_book r1; bws_book r2] `sublist_of` allBooks) ∧
  (∀ clock prof candidateBooks allBooks topN score,
     filter (λ r, tied (similarity r) score)
       (getPersonalizedRecommendations clock prof candidateBooks allBooks topN)
     `prefix_of` filter (λ r, tied (similarity r) score)
                   (scoreBooks prof allBooks clock 0 candidateBooks)) ∧
  (∀ clock prof candidateBooks allBooks topN r1 r2,
     [r1; r2] `sublist_of`
       getPersonalizedRecommendations clock prof candidateBooks allBooks topN →
     tied (similarity r1) (similarity r2) →
     [bws_book r1; bws_book r2] `sublist_of` candidateBooks).
Proof.
  assert (∀ targetBook allBooks topN i score,
     findIndex (λ book, (id book =? id targetBook)%Z) (validBooks allBooks) = Some i →
     filter (λ r, tied (similarity r) score) (getRec targetBook allBooks topN)
     `prefix_of` filter (λ r, tied (similarity r) score) (sims (validBooks allBooks) i))
    as Hsim.
  { intros targetBook allBooks topN i score Hi.
    rewrite (getRecommendations_found _ _ _ _ _ i Hi).
    apply filter_slice0_sort. apply tied_never_swapped. }
  assert (∀ clock prof candidateBooks allBooks topN score,
     filter (λ r, tied (similarity r) score)
       (getPersonalizedRecommendations clock prof candidateBooks allBooks topN)
     `prefix_of` filter (λ r, tied (similarity r) score)
                   (scoreBooks prof allBooks clock 0 candidateBooks)) as Hscore.
  { intros clock prof candidateBooks allBooks topN score.
    unfold getPersonalizedRecommendations.
    destruct (length candidateBooks =? 0)%nat; [apply prefix_nil|].
    apply filter_slice0_sort. apply tied_never_swapped. }
  split_and!; [exact Hsim | | exact Hscore |].
  - intros targetBook allBooks topN r1 r2 Hout Htied.
    destruct (findIndex (λ book, (id book =? id targetBook)%Z) (validBooks allBooks))
      as [i|] eqn:Hi.
    + etrans; [|apply (similarities_in_corpus_order allBooks i)].
      apply (fmap_sublist bws_book [r1; r2]).
      apply (tied_pair_order (λ r, tied (similarity r) (similarity r2))
               (getRec targetBook allBooks topN)); [by apply Hsim | done | | done].
      apply num_compare_refl.
    + rewrite getRecommendations_not_found in Hout by done.
      by apply sublist_nil_r in Hout.
  - intros clock prof candidateBooks allBooks topN r1 r2 Hout Htied.
    rewrite <- (scoreBooks_books prof allBooks clock 0 candidateBooks).
    apply (fmap_sublist bws_book [r1; r2]).
    apply (tied_pair_order (λ r, tied (similarity r) (similarity r2))
             (getPersonalizedRecommendations clock prof candidateBooks allBooks topN));
      [apply Hscore | done | | done].
    apply (num_compare_refl (similarity r2)).
Qed.

End RankingFacts.

(** ** The popularity index and the totals *)

Lemma bookPopularity_snoc (books : list Book) book :
  bookPopularity (books ++ [book])
  = <[id book := default 0%Q (view_count book)]> (bookPopularity books).
Proof. unfold bookPopularity. by rewrite foldl_app. Qed.

Lemma bookPopularity_last (books : list Book) i :
  bookPopularity books !! i
  = (λ book, default 0%Q (view_count book)) <$> last (filter (λ book, id book = i) books).
Proof.
  induction books as [|book books IH] using rev_ind; [done|].
  rewrite bookPopularity_snoc, filter_app, filter_cons, filter_nil.
  destruct (decide (id book = i)) as [<-|Hne].
  - by rewrite lookup_insert_eq, last_snoc.
  - by rewrite lookup_insert_ne, app_nil_r.
Qed.

Lemma maxPopularity_bounds (allBooks : list Book) :
  (1 <= maxPopularity allBooks)%Q ∧
  ∀ i views, bookPopularity allBooks !! i = Some views →
             (views <= maxPopularity allBooks)%Q.
Proof.
  unfold maxPopularity.
  apply (map_fold_weak_ind (λ best (index : gmap Z Q),
           (1 <= best)%Q ∧ ∀ i views, index !! i = Some views → (views <= best)%Q)).
  - split; [apply Qle_refl | done].
  - intros i views index best Hfresh [Hone Hbest]. split.
    + apply (Qle_trans _ best); [exact Hone | apply Q.le_max_r].
    + intros j v. rewrite lookup_insert. case_decide as Hij.
      * intros [= <-]. apply Q.le_max_l.
      * intros Hv. apply (Qle_trans _ best); [by apply (Hbest j) | apply Q.le_max_r].
Qed.







(** ** The personalized scorer *)

Section PersonalizedFacts.
Variable userHistoryGenres : gmap string Q.
Variable allBooks : list Book.

Abbreviation score := (scoreBook userHistoryGenres allBooks).
Abbreviation scoreAll := (scoreBooks userHistoryGenres allBooks).

Lemma normalizedTopN_range topN : (10 ≤ normalizedTopN topN ≤ 20)%Z.
Proof. unfold normalizedTopN. lia. Qed.

Lemma normalizedTopN_cases topN :
  normalizedTopN topN
  = (if topN <? 10 then 10 else if 20 <? topN then 20 else topN)%Z.
Proof.
  unfold normalizedTopN.
  destruct (Z.ltb_spec topN 10), (Z.ltb_spec 20 topN); lia.
Qed.

Lemma length_getPersonalizedRecommendations clock candidateBooks topN :
  length (getPersonalizedRecommendations clock userHistoryGenres
            candidateBooks allBooks topN)
  = Nat.min (length candidateBooks) (Z.to_nat (normalizedTopN topN)).
Proof.
  unfold getPersonalizedRecommendations.
  destruct (Nat.eqb_spec (length candidateBooks) 0) as [->|_]; [done|].
  pose proof (normalizedTopN_range topN).
  rewrite slice0_nonneg by lia.
  rewrite length_take, sort_length, length_scoreBooks. lia.
Qed.

(** C3.  The count is clamped into [10, 20], and the result has as many
    items as the smaller of the size of the candidate pool and the clamped
    count: between 10 and 20 items for a pool of 20 or more, and that
    minimum for a smaller pool. *)
Theorem personalized_result_size clock candidateBooks topN :
  (10 ≤ normalizedTopN topN ≤ 20)%Z ∧
  normalizedTopN topN
  = (if topN <? 10 then 10 else if 20 <? topN then 20 else topN)%Z ∧
  length (getPersonalizedRecommendations clock userHistoryGenres
            candidateBooks allBooks topN)
  = Nat.min (length candidateBooks) (Z.to_nat (normalizedTopN topN)) ∧
  ((20 ≤ length candidateBooks)%nat →
   (10 ≤ length (getPersonalizedRecommendations clock userHistoryGenres
                   candidateBooks allBooks topN) ≤ 20)%nat) ∧
  ((length candidateBooks < 20)%nat →
   length (getPersonalizedRecommendations clock userHistoryGenres
             candidateBooks allBooks topN)
   = Nat.min (length candidateBooks) (Z.to_nat (normalizedTopN topN))).
Proof.
  pose proof (normalizedTopN_range topN) as Hrange.
  pose proof (length_getPersonalizedRecommendations clock candidateBooks topN) as Hlen.
  split_and!; [lia | lia | apply normalizedTopN_cases | done | | done].
  intros Hpool. rewrite Hlen. lia.
Qed.

Lemma genreMatchWeight_sum (labels : list string) (start : Q) :
  (foldl (λ weight genre, weight + default 0 (userHistoryGenres !! genre)) start labels
   == start + profileWeight userHistoryGenres labels)%Q.
Proof.
  revert start. induction labels as [|label labels IH]; intros start; simpl.
  - ring.
  - rewrite IH. ring.
Qed.



Lemma scoreBook_undated now1 now2 book :
  created_at book = None → score now1 book = score now2 book.
Proof. intros Hnone. unfold scoreBook. by rewrite Hnone. Qed.

Lemma clockReads_cons book rest :
  clockReads (book :: rest)
  = ((match created_at book with Some _ => 1 | None => 0 end) + clockReads rest)%nat.
Proof.
  unfold clockReads. rewrite filter_cons.
  case_decide as Hdated; destruct (created_at book); simpl; try done;
    destruct Hdated; eauto; done.
Qed.

(** The entry at position [k] of the scored list. *)
Lemma lookup_scoreBooks clock reads candidateBooks k book :
  candidateBooks !! k = Some book →
  scoreAll clock reads candidateBooks !! k
  = Some {| bws_book := book;
            similarity := score (clock (reads + clockReads (take k candidateBooks))%nat) book |}.
Proof.
  revert reads k. induction candidateBooks as [|first rest IH]; intros reads k; [done|].
  destruct k as [|k]; simpl.
  - intros [= ->]. unfold clockReads. simpl. by rewrite Nat.add_0_r.
  - intros Hk. rewrite (IH _ _ Hk). rewrite clockReads_cons.
    do 4 f_equal. destruct (created_at first); lia.
Qed.

Lemma scoreBooks_clock_ext clock1 clock2 reads candidateBooks :
  (∀ k, (reads ≤ k < reads + clockReads candidateBooks)%nat → clock1 k = clock2 k) →
  scoreAll clock1 reads candidateBooks = scoreAll clock2 reads candidateBooks.
Proof.
  revert reads. induction candidateBooks as [|book rest IH]; intros reads Hagree; [done|].
  simpl. rewrite clockReads_cons in Hagree. f_equal.
  - f_equal. destruct (created_at book) eqn:Hc.
    + rewrite (Hagree reads); [done | lia].
    + by apply scoreBook_undated.
  - apply IH. intros k Hk. apply Hagree. destruct (created_at book); lia.
Qed.


End PersonalizedFacts.

(** ** The entry points and the clock *)

Section EntryFacts.
Context {num : Type} `{JSNumber num}.
Variable calculateTFIDF : list string → gmap nat (gmap string num).
Variable cosineSimilarity : gmap string num → gmap string num → num.

(** C1 (amended).  [getRecommendations] and [getRecommendationsByTitle]
    depend on their arguments only.  [getPersonalizedRecommendations]
    depends on its arguments and on the readings of the clock, one for
    every candidate with a creation time stamp: two calls with the same
    arguments return the same result when these readings agree. *)
Theorem engine_result_determined_by_arguments_and_clock clock1 clock2 call :
  (∀ k, (k < callReads call)%nat → clock1 k = clock2 k) →
  runCall calculateTFIDF cosineSimilarity clock1 call
  = runCall calculateTFIDF cosineSimilarity clock2 call.
Proof.
  destruct call as [| |prof candidateBooks allBooks topN]; simpl; [done..|].
  intros Hagree. unfold getPersonalizedRecommendations.
  rewrite (scoreBooks_clock_ext prof allBooks clock1 clock2 0 candidateBooks); [done|].
  intros k Hk. apply Hagree. lia.
Qed.

End EntryFacts.

Section PersonalizedSamples.
Import Examples.

(** The reader of fantasy is offered the fantasy title first. *)
Example fantasy_reader_ranking :
  bws_book <$> getPersonalizedRecommendations midnight fantasyReader
                 datedCatalog datedCatalog 15
  = [bumi; negeri].
Proof. vm_compute. reflexivity. Qed.

Example fantasy_reader_scores :
  similarity <$> getPersonalizedRecommendations midnight fantasyReader catalog catalog 15
  = [0.4 * (10 / 10) + 0.3 * (0 / 1); 0.4 * (10 / 10) + 0.3 * (0 / 1);
     0.4 * (0 / 10) + 0.3 * (0 / 1)]%Q.
Proof. vm_compute. reflexivity. Qed.

Example count_is_clamped :
  normalizedTopN 3 = 10%Z ∧ normalizedTopN 15 = 15%Z ∧ normalizedTopN 99 = 20%Z.
Proof. by vm_compute. Qed.

(** C1, as stated, fails for [getPersonalizedRecommendations]: the same
    arguments give different scores a day later. *)
Lemma getPersonalizedRecommendations_reads_clock :
  getPersonalizedRecommendations midnight fantasyReader datedCatalog datedCatalog 15
  ≠ getPersonalizedRecommendations nextDay fantasyReader datedCatalog datedCatalog 15.
Proof. intros Heq. vm_compute in Heq. discriminate Heq. Qed.

Lemma engine_result_determined_by_arguments_and_clock_witness :
  (∀ k, (k < callReads (CallPersonalized fantasyReader datedCatalog datedCatalog 15))%nat →
        midnight k = lateClock k) ∧
  runCall Tfidf.calculateTFIDF Tfidf.cosineSimilarity midnight
    (CallPersonalized fantasyReader datedCatalog datedCatalog 15)
  = runCall Tfidf.calculateTFIDF Tfidf.cosineSimilarity lateClock
      (CallPersonalized fantasyReader datedCatalog datedCatalog 15).
Proof.
  assert (∀ k, (k < callReads (CallPersonalized fantasyReader
                                 datedCatalog datedCatalog 15))%nat →
               midnight k = lateClock k) as Hagree.
  { intros k Hk.
    assert (callReads (CallPersonalized fantasyReader
                         datedCatalog datedCatalog 15) = 2%nat) as Hreads
      by reflexivity.
    rewrite Hreads in Hk. destruct k as [|[|k]]; [reflexivity | reflexivity | lia]. }
  split; [exact Hagree|].
  apply engine_result_determined_by_arguments_and_clock. exact Hagree.
Defined.

Lemma personalized_result_size_witness :
  ((20 ≤ length (replicate 25 laskar))%nat ∧
   (10 ≤ length (getPersonalizedRecommendations midnight fantasyReader
                   (replicate 25 laskar) catalog 15) ≤ 20)%nat) ∧
  ((length catalog < 20)%nat ∧
   length (getPersonalizedRecommendations midnight fantasyReader catalog catalog 15)
   = Nat.min (length catalog) (Z.to_nat (normalizedTopN 15))).
Proof.
  destruct (personalized_result_size fantasyReader catalog midnight
              (replicate 25 laskar) 15) as (_ & _ & _ & Hlarge & _).
  destruct (personalized_result_size fantasyReader catalog midnight catalog 15)
    as (_ & _ & _ & _ & Hsmall).
  assert (20 ≤ length (replicate 25 laskar))%nat as H20 by (simpl; lia).
  assert (length catalog < 20)%nat as H3 by (simpl; lia).
  split; split; [exact H20 | exact (Hlarge H20) | exact H3 | exact (Hsmall H3)].
Defined.


Lemma stable_tie_break_witness :
  (findIndex (λ book, (id book =? id laskar)%Z) (validBooks catalog) = Some 0%nat ∧
   ∀ score,
     filter (λ r, tied (similarity r) score)
       (getRecommendations Tfidf.calculateTFIDF Tfidf.cosineSimilarity laskar catalog 10)
     `prefix_of`
     filter (λ r, tied (similarity r) score)
       (similarities Tfidf.calculateTFIDF Tfidf.cosineSimilarity (validBooks catalog) 0)) ∧
  ([ {| bws_book := laskar; similarity := scoreBook fantasyReader catalog 0 laskar |};
     {| bws_book := pemimpi; similarity := scoreBook fantasyReader catalog 0 pemimpi |} ]
   `sublist_of` getPersonalizedRecommendations midnight fantasyReader catalog catalog 15 ∧
   tied (scoreBook fantasyReader catalog 0 laskar)
        (scoreBook fantasyReader catalog 0 pemimpi) ∧
   [laskar; pemimpi] `sublist_of` catalog).
Proof.
  destruct (stable_tie_break Tfidf.calculateTFIDF Tfidf.cosineSimilarity)
    as (Hsim & _ & _ & Hscore).
  assert (findIndex (λ book, (id book =? id laskar)%Z) (validBooks catalog) = Some 0%nat)
    as Hfound by reflexivity.
  assert ([ {| bws_book := laskar; similarity := scoreBook fantasyReader catalog 0 laskar |};
            {| bws_book := pemimpi; similarity := scoreBook fantasyReader catalog 0 pemimpi |} ]
          `sublist_of` getPersonalizedRecommendations midnight fantasyReader
                         catalog catalog 15) as Hout.
  { vm_compute. repeat constructor. }
  assert (tied (scoreBook fantasyReader catalog 0 laskar)
               (scoreBook fantasyReader catalog 0 pemimpi)) as Htied
    by (vm_compute; reflexivity).
  split; [split; [exact Hfound | intros score; exact (Hsim _ _ _ _ score Hfound)]|].
  split_and!; [exact Hout | exact Htied |].
  exact (Hscore _ _ _ _ _ _ _ Hout Htied).
Defined.

End PersonalizedSamples.

(** ** Cosine similarity over the real numbers *)

Section CosineFacts.
Import Tfidf.
Local Open Scope R_scope.

Implicit Types (a b : gmap string R) (f g : string → R → R).

Lemma sumOver_empty f : sumOver f ∅ = 0.
Proof. unfold sumOver. by rewrite map_fold_empty. Qed.

Lemma sumOver_insert f a key x :
  a !! key = None → sumOver f (<[key:=x]> a) = sumOver f a + f key x.
Proof.
  intros Hfresh. unfold sumOver.
  rewrite map_fold_insert_L; [done| |done].
  intros j1 j2 z1 z2 y _ _ _. lra.
Qed.

Lemma sumOver_ext f g a :
  (∀ key x, a !! key = Some x → f key x = g key x) → sumOver f a = sumOver g a.
Proof.
  induction a as [|key x a Hfresh IH] using map_ind; intros Hfg.
  - by rewrite !sumOver_empty.
  - rewrite !sumOver_insert by done. rewrite IH, (Hfg key x).
    + done.
    + by rewrite lookup_insert_eq.
    + intros k y Hk. apply Hfg. rewrite lookup_insert_ne; [done|]. by intros ->; simplify_eq.
Qed.

Lemma sumOver_nonneg f a :
  (∀ key x, a !! key = Some x → 0 <= f key x) → 0 <= sumOver f a.
Proof.
  induction a as [|key x a Hfresh IH] using map_ind; intros Hf.
  - rewrite sumOver_empty. lra.
  - rewrite sumOver_insert by done.
    assert (0 <= f key x) by (apply Hf; by rewrite lookup_insert_eq).
    assert (0 <= sumOver f a); [|lra].
    apply IH. intros k y Hk. apply Hf.
    rewrite lookup_insert_ne; [done|]. by intros ->; simplify_eq.
Qed.

Lemma sumOver_squares_nonneg a : 0 <= sumOver (λ _ x, x * x) a.
Proof. apply sumOver_nonneg. intros _ x _. nra. Qed.

(** The inequality of Cauchy and Schwarz, over the keys of [a]. *)
Lemma sumOver_cauchy_schwarz (w : string → R) a :
  sumOver (λ key x, x * w key) a
  <= sqrt (sumOver (λ _ x, x * x) a) * sqrt (sumOver (λ key _, w key * w key) a).
Proof.
  induction a as [|key x a Hfresh IH] using map_ind.
  - rewrite !sumOver_empty, sqrt_0. lra.
  - rewrite !sumOver_insert by done.
    set (A := sumOver (λ _ x, x * x) a) in *.
    set (B := sumOver (λ key _, w key * w key) a) in *.
    assert (0 <= A) by apply sumOver_squares_nonneg.
    assert (0 <= B) by (apply sumOver_nonneg; intros; nra).
    pose proof (sqrt_cauchy (sqrt A) x (sqrt B) (w key)) as Hc.
    rewrite !Rsqr_sqrt in Hc by done. unfold Rsqr in Hc. lra.
Qed.

(** The squares of the components of [b] at the keys of [a] sum to at
    most the squares of all components of [b]. *)
Lemma sumOver_lookup_squares a b :
  sumOver (λ key _, default 0 (b !! key) * default 0 (b !! key)) a
  <= sumOver (λ _ x, x * x) b.
Proof.
  revert b. induction a as [|key x a Hfresh IH] using map_ind; intros b.
  - rewrite sumOver_empty. apply sumOver_squares_nonneg.
  - rewrite sumOver_insert by done.
    rewrite (sumOver_ext _
               (λ k _, default 0 (delete key b !! k) * default 0 (delete key b !! k)) a).
    + specialize (IH (delete key b)).
      destruct (b !! key) as [y|] eqn:Hb; simpl.
      * assert (sumOver (λ _ x, x * x) b
                = sumOver (λ _ x, x * x) (delete key b) + y * y) as ->; [|lra].
        rewrite <- (insert_delete_id b key y Hb) at 1.
        by rewrite sumOver_insert by apply lookup_delete_eq.
      * rewrite delete_id in IH |- * by done. lra.
    + intros k y Hk. rewrite lookup_delete_ne; [done|]. by intros ->; simplify_eq.
Qed.

Lemma dotProduct_le_norms a b : dotProduct a b <= norm a * norm b.
Proof.
  unfold dotProduct, norm.
  etrans; [apply (sumOver_cauchy_schwarz (λ key, default 0 (b !! key)))|].
  apply Rmult_le_compat_l; [apply sqrt_pos|].
  apply sqrt_le_1_alt, sumOver_lookup_squares.
Qed.

Lemma dotProduct_nonneg a b : nonnegative a → nonnegative b → 0 <= dotProduct a b.
Proof.
  intros Ha Hb. apply sumOver_nonneg. intros key x Hx.
  apply Rmult_le_pos; [by apply (Ha key)|].
  destruct (b !! key) as [y|] eqn:Hy; simpl; [by apply (Hb key) | lra].
Qed.

Lemma unit_ratio x d : 0 <= x <= d → 0 < d → 0 <= x / d <= 1.
Proof.
  intros [Hx Hd] Hpos. split.
  - by apply Rle_mult_inv_pos.
  - apply (Rmult_le_reg_r d); [done|].
    unfold Rdiv. rewrite Rmult_assoc, Rinv_l; lra.
Qed.

Lemma cosineSimilarity_unit a b :
  nonnegative a → nonnegative b → 0 <= cosineSimilarity a b <= 1.
Proof.
  intros Ha Hb. unfold cosineSimilarity.
  destruct (Req_dec_T (norm a) 0) as [|Hna]; [lra|].
  destruct (Req_dec_T (norm b) 0) as [|Hnb]; [lra|].
  assert (0 < norm a) by (pose proof (sqrt_pos (sumOver (λ _ x, x * x) a)); unfold norm in *; lra).
  assert (0 < norm b) by (pose proof (sqrt_pos (sumOver (λ _ x, x * x) b)); unfold norm in *; lra).
  apply unit_ratio.
  - split; [by apply dotProduct_nonneg | apply dotProduct_le_norms].
  - by apply Rmult_lt_0_compat.
Qed.

Lemma cosineSimilarity_zero_norm a b :
  norm a = 0 ∨ norm b = 0 → cosineSimilarity a b = 0.
Proof.
  intros Hzero. unfold cosineSimilarity.
  destruct (Req_dec_T (norm a) 0); [done|].
  destruct (Req_dec_T (norm b) 0); [done|]. by destruct Hzero.
Qed.

End CosineFacts.

(** ** Non-negative vectors, and the range of the similarity *)

Section UnitInterval.
Import Tfidf.

Lemma ln_nonneg (x : R) : (1 <= x)%R → (0 <= ln x)%R.
Proof.
  intros [Hlt | <-]; [|rewrite ln_1; lra].
  rewrite <- ln_1. left. apply ln_increasing; lra.
Qed.

Lemma documentFrequency_le term docs :
  (documentFrequency term docs ≤ length docs)%nat.
Proof. apply length_filter. Qed.

Lemma inverseDocumentFrequency_nonneg term docs :
  docs ≠ [] → (0 <= inverseDocumentFrequency term docs)%R.
Proof.
  intros Hdocs. unfold inverseDocumentFrequency. apply ln_nonneg.
  pose proof (documentFrequency_le term docs) as Hdf.
  assert (1 ≤ length docs)%nat as Hlen by (destruct docs; [done | simpl; lia]).
  assert (1 ≤ Nat.max (documentFrequency term docs) 1 ≤ length docs)%nat as [Hlo Hhi] by lia.
  apply le_INR in Hlo, Hhi. simpl in Hlo.
  apply (Rmult_le_reg_r (INR (Nat.max (documentFrequency term docs) 1))); [lra|].
  unfold Rdiv. rewrite Rmult_assoc, Rinv_l; lra.
Qed.

Lemma termFrequency_nonneg term terms : terms ≠ [] → (0 <= termFrequency term terms)%R.
Proof.
  intros Hterms. unfold termFrequency. apply Rle_mult_inv_pos; [apply pos_INR|].
  apply lt_0_INR. destruct terms; [done | simpl; lia].
Qed.

Lemma termVector_nonneg docs terms : docs ≠ [] → nonnegative (termVector docs terms).
Proof.
  intros Hdocs key x Hx. unfold termVector in Hx.
  apply elem_of_list_to_map_2, list_elem_of_fmap in Hx as (term & [= -> ->] & Hterm).
  apply Rmult_le_pos.
  - apply termFrequency_nonneg. by destruct terms; [apply elem_of_nil in Hterm|].
  - by apply inverseDocumentFrequency_nonneg.
Qed.

Lemma calculateTFIDF_nonneg documents i vector :
  calculateTFIDF documents !! i = Some vector → nonnegative vector.
Proof.
  unfold calculateTFIDF. rewrite lookup_map_seq_0, list_lookup_fmap.
  destruct (map tokenize documents !! i) as [terms|] eqn:Hi; [|done].
  intros [= <-]. apply termVector_nonneg.
  intros Hnil. by rewrite Hnil in Hi.
Qed.

Lemma lookup_default_nonneg (table : gmap nat (gmap string R)) i :
  (∀ j vector, table !! j = Some vector → nonnegative vector) →
  nonnegative (default ∅ (table !! i)).
Proof.
  intros Htable. destruct (table !! i) as [vector|] eqn:Hi; simpl.
  - by apply (Htable i).
  - apply map_Forall_empty.
Qed.

Lemma set_fold_insert_nonneg (tag : string) (weight : string → R)
    (init : gmap string R) (terms : gset string) :
  (∀ term, (0 <= weight term)%R) → nonnegative init →
  nonnegative (set_fold (λ term combined, <[tag +:+ term := weight term]> combined)
                 init terms).
Proof.
  intros Hweight Hinit.
  apply (set_fold_ind_L (λ combined (_ : gset string), nonnegative combined)); [done|].
  intros term seen combined _ IH. by apply map_Forall_insert_2.
Qed.

Lemma foldl_genre_nonneg (entries : list (nat * R)) (init : gmap string R) :
  Forall (λ entry, (0 <= entry.2)%R) entries → nonnegative init →
  nonnegative
    (foldl (λ combined '(index, value), <["genre_" +:+ pretty index := value]> combined)
           init entries).
Proof.
  intros Hentries. revert init.
  induction Hentries as [|[index value] entries Hvalue _ IH]; intros init Hinit; [done|].
  simpl. apply IH. by apply map_Forall_insert_2.
Qed.

Lemma default_nonneg (vector : gmap string R) key :
  nonnegative vector → (0 <= default 0 (vector !! key))%R.
Proof.
  intros Hvector. destruct (vector !! key) as [x|] eqn:Hx; simpl; [|lra].
  by apply (Hvector key).
Qed.

Lemma combineVectors_nonneg titleVector genreVector synopsisVector
    (allTitleTerms allSynopsisTerms : gset string) :
  nonnegative titleVector → Forall (λ x, (0 <= x)%R) genreVector →
  nonnegative synopsisVector →
  nonnegative (combineVectors titleVector genreVector synopsisVector
                 allTitleTerms allSynopsisTerms).
Proof.
  intros Htitle Hgenre Hsynopsis. unfold combineVectors.
  apply (set_fold_insert_nonneg "synopsis_"
           (λ term, default 0%R (synopsisVector !! term)));
    [intros; by apply default_nonneg|].
  apply foldl_genre_nonneg.
  - apply Forall_forall. intros [index value] Hin.
    apply elem_of_lookup_imap in Hin as (i & x & [= -> ->] & Hx). simpl.
    rewrite Forall_forall in Hgenre. apply Hgenre. by eapply list_elem_of_lookup_2.
  - apply (set_fold_insert_nonneg "title_"
             (λ term, default 0%R (titleVector !! term)));
      [intros; by apply default_nonneg | apply map_Forall_empty].
Qed.

Lemma createGenreVector_nonneg book (allGenres : list string) :
  Forall (λ x, (0 <= x)%R) (createGenreVector book allGenres).
Proof.
  unfold createGenreVector. destruct (has_genre book).
  - apply Forall_fmap, Forall_forall. intros genre _. simpl.
    case_bool_decide; lra.
  - apply Forall_replicate. simpl. lra.
Qed.

Lemma combinedVectors_nonneg valid i :
  nonnegative (default ∅ (combinedVectors calculateTFIDF valid !! i)).
Proof.
  destruct (valid !! i) as [book|] eqn:Hi.
  - rewrite (lookup_combinedVectors calculateTFIDF valid i book Hi). simpl.
    apply combineVectors_nonneg.
    + apply lookup_default_nonneg. intros j. apply calculateTFIDF_nonneg.
    + apply createGenreVector_nonneg.
    + apply lookup_default_nonneg. intros j. apply calculateTFIDF_nonneg.
  - assert (combinedVectors calculateTFIDF valid !! i = None) as ->.
    { apply lookup_ge_None. unfold combinedVectors. rewrite length_imap.
      by apply lookup_ge_None. }
    apply map_Forall_empty.
Qed.

(** C7.  With the TF-IDF weights and the cosine similarity of the
    specification, every similarity in the result of [getRecommendations]
    lies between 0 and 1, and the similarity is 0 when a norm is 0. *)
Theorem similarity_in_unit_interval :
  (∀ targetBook allBooks topN r,
     r ∈ getRecommendations calculateTFIDF cosineSimilarity targetBook allBooks topN →
     (0 <= similarity r <= 1)%R) ∧
  (∀ a b, nonnegative a → nonnegative b → (0 <= cosineSimilarity a b <= 1)%R) ∧
  (∀ a b, norm a = 0%R ∨ norm b = 0%R → cosineSimilarity a b = 0%R).
Proof.
  split_and!; [|apply cosineSimilarity_unit | apply cosineSimilarity_zero_norm].
  intros targetBook allBooks topN r Hr.
  destruct (findIndex (λ book, (id book =? id targetBook)%Z) (validBooks allBooks))
    as [i|] eqn:Hi.
  - rewrite (getRecommendations_found _ _ _ _ _ i Hi) in Hr.
    apply elem_of_slice0, elem_of_sort, elem_of_similarities in Hr
      as (j & book & _ & _ & ->). simpl.
    apply cosineSimilarity_unit; apply combinedVectors_nonneg.
  - rewrite getRecommendations_not_found in Hr by done.
    by apply elem_of_nil in Hr.
Qed.

End UnitInterval.

Lemma similarity_in_unit_interval_witness :
  ∃ r, r ∈ getRecommendations Tfidf.calculateTFIDF Tfidf.cosineSimilarity
             Examples.laskar Examples.catalog 10 ∧
       bws_book r = Examples.pemimpi ∧
       (0 <= similarity r <= 1)%R.
Proof.
  destruct (getRecommendations_ranks Tfidf.calculateTFIDF Tfidf.cosineSimilarity
              Examples.laskar Examples.catalog 10 0 1 Examples.pemimpi)
    as (r & Hr & Hbook).
  - reflexivity.
  - vm_compute. discriminate.
  - reflexivity.
  - lia.
  - exists r. split; [exact Hr|]. split; [exact Hbook|].
    exact (proj1 similarity_in_unit_interval _ _ _ r Hr).
Defined.

(** * Further properties of the engine *)

(** ** The genre vocabulary and the multi-hot vectors *)

Lemma lower_char_idem c : JSString.lower_char (JSString.lower_char c) = JSString.lower_char c.
Proof. destruct c as [[] [] [] [] [] [] [] []]; reflexivity. Qed.

Lemma toLowerCase_idem s : JSString.toLowerCase (JSString.toLowerCase s) = JSString.toLowerCase s.
Proof. induction s as [|c s IH]; simpl; [done|]. by rewrite lower_char_idem, IH. Qed.

Lemma genre_labels_lowercase g label :
  label ∈ genre_labels g → JSString.toLowerCase label = label.
Proof.
  unfold genre_labels. intros (part & -> & _)%list_elem_of_fmap.
  apply toLowerCase_idem.
Qed.

Lemma extractAllGenres_lowercase books g :
  g ∈ extractAllGenres books → JSString.toLowerCase g = g.
Proof.
  intros (book & _ & Hg)%extractAllGenres_elem. unfold bookLabels in Hg.
  destruct (has_genre book); [|by apply elem_of_nil in Hg].
  by eapply genre_labels_lowercase.
Qed.

(** X1.  The genre vocabulary of a corpus is strictly ascending, hence
    without duplicates, and consists of the trimmed lower-cased labels of
    the items that carry a genre; items without a genre contribute nothing. *)
Theorem extractAllGenres_vocabulary books :
  strictlyAscending (extractAllGenres books) ∧
  NoDup (extractAllGenres books) ∧
  ∀ g, g ∈ extractAllGenres books ↔ ∃ book, book ∈ books ∧ g ∈ bookLabels book.
Proof.
  split_and!; [apply extractAllGenres_ascending | apply extractAllGenres_NoDup
              | apply extractAllGenres_elem].
Qed.

Section GenreVectorFacts.
Context {num : Type} `{JSNumber num}.

(** X2.  Over the vocabulary of a corpus, the genre vector of an item of
    the corpus that carries a genre has one entry per vocabulary label, the
    entry is one exactly at the labels of the item, and every label of the
    item has such an entry.  The vector of an item without genre is all
    zero. *)
Theorem genre_vector_marks_labels books book :
  book ∈ books →
  length (createGenreVector book (extractAllGenres books))
  = length (extractAllGenres books) ∧
  (∀ i g, extractAllGenres books !! i = Some g →
     createGenreVector book (extractAllGenres books) !! i
     = Some (if bool_decide (g ∈ bookLabels book) then num_one else num_zero)) ∧
  (∀ g, g ∈ bookLabels book →
     ∃ i, extractAllGenres books !! i = Some g ∧
          createGenreVector book (extractAllGenres books) !! i = Some num_one).
Proof.
  intros Hbook.
  assert (∀ i g, extractAllGenres books !! i = Some g →
     createGenreVector book (extractAllGenres books) !! i
     = Some (if bool_decide (g ∈ bookLabels book) then num_one else num_zero)) as Hmark.
  { intros i g Hi. unfold createGenreVector, bookLabels.
    destruct (has_genre book) eqn:Hgenre.
    - rewrite list_lookup_fmap, Hi. simpl.
      assert (JSString.toLowerCase g = g) as ->; [|done].
      apply list_elem_of_lookup_2, extractAllGenres_lowercase in Hi. done.
    - rewrite lookup_replicate_2 by (by apply lookup_lt_Some in Hi).
      by rewrite bool_decide_false by apply not_elem_of_nil. }
  split_and!; [apply length_createGenreVector | exact Hmark |].
  intros g Hg.
  assert (g ∈ extractAllGenres books) as [i Hi]%list_elem_of_lookup.
  { apply extractAllGenres_elem. by exists book. }
  exists i. split; [done|]. by rewrite (Hmark i g Hi), bool_decide_true.
Qed.

End GenreVectorFacts.

(** ** Reading the combined vector back *)

Lemma lookup_set_fold_insert {V : Type} (tag : string) (weight : string → V)
    (init : gmap string V) (terms : gset string) :
  let combined :=
    set_fold (λ term combined, <[tag +:+ term := weight term]> combined) init terms in
  (∀ term, term ∈ terms → combined !! (tag +:+ term) = Some (weight term)) ∧
  (∀ key, (∀ term, term ∈ terms → key ≠ tag +:+ term) → combined !! key = init !! key).
Proof.
  simpl.
  apply (set_fold_ind_L (λ combined (seen : gset string),
    (∀ term, term ∈ seen → combined !! (tag +:+ term) = Some (weight term)) ∧
    (∀ key, (∀ term, term ∈ seen → key ≠ tag +:+ term) → combined !! key = init !! key))).
  - split; [intros term []%elem_of_empty | done].
  - intros x seen combined Hx [IHin IHout]. split.
    + intros term [->%elem_of_singleton | Hterm]%elem_of_union.
      * apply lookup_insert_eq.
      * rewrite lookup_insert_ne; [by apply IHin|].
        intros Heq. apply (inj (String.app tag)) in Heq. by subst.
    + intros key Hkey. rewrite lookup_insert_ne.
      * apply IHout. intros term Hterm. apply Hkey, elem_of_union. by right.
      * intros Heq. apply (Hkey x); [|done]. apply elem_of_union. left.
        by apply elem_of_singleton.
Qed.

Lemma lookup_foldl_genre {V : Type} (genreVector : list V) (init : gmap string V) (k : nat) :
  let combined :=
    foldl (λ combined '(index, value), <["genre_" +:+ pretty index := value]> combined)
          init (imap (λ i, pair (k + i)%nat) genreVector) in
  (∀ i value, genreVector !! i = Some value →
     combined !! ("genre_" +:+ pretty (k + i)%nat) = Some value) ∧
  (∀ key, (∀ i, (i < length genreVector)%nat → key ≠ "genre_" +:+ pretty (k + i)%nat) →
     combined !! key = init !! key).
Proof.
  simpl. revert init k.
  induction genreVector as [|value rest IH]; intros init k.
  - split; [done | done].
  - rewrite imap_cons. simpl.
    rewrite (imap_ext _ (λ i, pair (S k + i)%nat)) by (intros; simpl; f_equal; lia).
    destruct (IH (<["genre_" +:+ pretty (k + 0)%nat := value]> init) (S k))
      as [IHin IHout].
    split.
    + intros [|i] v Hv; simpl in Hv.
      * injection Hv as ->. rewrite IHout; [apply lookup_insert_eq|].
        intros i _ Heq. apply (inj (String.app "genre_")), (inj pretty) in Heq. lia.
      * replace (k + S i)%nat with (S k + i)%nat by lia. by apply IHin.
    + intros key Hkey. rewrite IHout.
      * rewrite lookup_insert_ne; [done|]. intros Heq.
        apply (Hkey 0%nat); [simpl; lia | done].
      * intros i Hi. replace (S k + i)%nat with (k + S i)%nat by lia.
        apply Hkey. simpl. lia.
Qed.

Section CombineFacts.
Context {num : Type} `{JSNumber num}.

(** X3.  The combined vector can be read back field by field: a title
    term of the vocabulary has the TF-IDF weight of the title, or 0 when the
    title lacks it; a genre index has the entry of the genre vector; a
    synopsis term has the weight of the synopsis, or 0.  No field
    overwrites another. *)
Theorem combineVectors_lookup titleVector (genreVector : list num) synopsisVector
    (allTitleTerms allSynopsisTerms : gset string) :
  let combined := combineVectors titleVector genreVector synopsisVector
                    allTitleTerms allSynopsisTerms in
  (∀ term, term ∈ allTitleTerms →
     combined !! ("title_" +:+ term) = Some (default num_zero (titleVector !! term))) ∧
  (∀ index value, genreVector !! index = Some value →
     combined !! ("genre_" +:+ pretty index) = Some value) ∧
  (∀ term, term ∈ allSynopsisTerms →
     combined !! ("synopsis_" +:+ term)
     = Some (default num_zero (synopsisVector !! term))).
Proof.
  simpl. unfold combineVectors.
  destruct (lookup_set_fold_insert "title_"
              (λ term, default num_zero (titleVector !! term)) ∅ allTitleTerms)
    as [Htitle _].
  match goal with
  | |- context [foldl ?f ?init (imap pair genreVector)] =>
      destruct (lookup_foldl_genre genreVector init 0) as [Hgenre Hgenre'];
      destruct (lookup_set_fold_insert "synopsis_"
                  (λ term, default num_zero (synopsisVector !! term))
                  (foldl f init (imap pair genreVector)) allSynopsisTerms)
        as [Hsynopsis Hsynopsis']
  end.
  simpl in *. split_and!.
  - intros term Hterm. rewrite Hsynopsis' by (intros; discriminate).
    rewrite Hgenre' by (intros; discriminate). by apply Htitle.
  - intros index value Hvalue. rewrite Hsynopsis' by (intros; discriminate).
    by apply Hgenre.
  - exact Hsynopsis.
Qed.

End CombineFacts.

(** ** The ranked list of [getRecommendations] *)

Lemma books_of_indexed_delete {N : Type} (g : nat → Book → BookWithSimilarity N)
    (target k : nat) (l : list Book) :
  (∀ j book, bws_book (g j book) = book) →
  bws_book <$> omap (λ x, x)
    (imap (λ j book, if bool_decide ((k + j)%nat = target) then None
                     else Some (g (k + j)%nat book)) l)
  = if decide (target < k)%nat then l else delete (target - k)%nat l.
Proof.
  intros Hg. revert k. induction l as [|book l IH]; intros k.
  - simpl. by destruct (decide _).
  - rewrite imap_cons. csimpl.
    rewrite (imap_ext _ (λ j book, if bool_decide ((S k + j)%nat = target) then None
                                   else Some (g (S k + j)%nat book)))
      by (intros j b _; simpl; replace (k + S j)%nat with (S k + j)%nat by lia; done).
    pose proof (IH (S k)) as IH'. simpl in IH'.
    rewrite Nat.add_0_r. case_bool_decide as Hk; csimpl.
    + subst target. rewrite IH', decide_True by lia.
      rewrite decide_False by lia. by rewrite Nat.sub_diag.
    + rewrite IH', Hg. destruct (decide (target < k)%nat).
      * by rewrite decide_True by lia.
      * rewrite decide_False by lia.
        replace (target - k)%nat with (S (target - S k)) by lia. done.
Qed.

Section RankedListFacts.
Context {num : Type} `{JSNumber num}.
Variable calculateTFIDF : list string → gmap nat (gmap string num).
Variable cosineSimilarity : gmap string num → gmap string num → num.

Abbreviation getRec := (getRecommendations calculateTFIDF cosineSimilarity).
Abbreviation getByTitle := (getRecommendationsByTitle calculateTFIDF cosineSimilarity).
Abbreviation sims := (similarities calculateTFIDF cosineSimilarity).

Lemma similarities_books valid i : bws_book <$> sims valid i = delete i valid.
Proof.
  unfold similarities.
  rewrite (books_of_indexed_delete
             (λ j book, {| bws_book := book;
                           similarity := cosineSimilarity
                             (default ∅ (combinedVectors calculateTFIDF valid !! i))
                             (default ∅ (combinedVectors calculateTFIDF valid !! j)) |})
             i 0 valid) by done.
  rewrite decide_False by lia. by rewrite Nat.sub_0_r.
Qed.

Lemma length_similarities valid i :
  (i < length valid)%nat → length (sims valid i) = (length valid - 1)%nat.
Proof.
  intros Hi. rewrite <- (length_fmap bws_book), similarities_books.
  rewrite length_delete; [done|]. by apply lookup_lt_is_Some.
Qed.

Lemma findIndex_lt {A} (p : A → bool) (l : list A) i :
  findIndex p l = Some i → (i < length l)%nat.
Proof.
  intros (x & Hx & _)%findIndex_Some. by apply lookup_lt_Some in Hx.
Qed.

Lemma slice0_submseteq {A} (l : list A) (n : Z) : slice0 l n ⊆+ l.
Proof. unfold slice0. destruct (n <? 0)%Z; apply submseteq_take. Qed.

Lemma length_slice0 {A} (l : list A) (n : Z) :
  Z.of_nat (length (slice0 l n))
  = (if n <? 0 then Z.max (Z.of_nat (length l) + n) 0
     else Z.min n (Z.of_nat (length l)))%Z.
Proof.
  unfold slice0. destruct (Z.ltb_spec n 0); rewrite length_take; lia.
Qed.

(** X4.  When the target is found among the genre-carrying items, the
    result has [min(topN, v - 1)] items for a [topN] that is not negative,
    [v] being the number of genre-carrying items; a negative [topN] drops
    that many items from the end of the ranking instead. *)
Theorem getRecommendations_length targetBook allBooks topN i :
  findIndex (λ book, (id book =? id targetBook)%Z) (validBooks allBooks) = Some i →
  Z.of_nat (length (getRec targetBook allBooks topN))
  = (if topN <? 0
     then Z.max (Z.of_nat (length (validBooks allBooks)) - 1 + topN) 0
     else Z.min topN (Z.of_nat (length (validBooks allBooks)) - 1))%Z.
Proof.
  intros Hi. rewrite (getRecommendations_found _ _ _ _ _ i Hi).
  rewrite length_slice0, sort_length, length_similarities by (by eapply findIndex_lt).
  apply findIndex_lt in Hi. destruct (topN <? 0)%Z; lia.
Qed.

Lemma getRecommendations_books targetBook allBooks topN i :
  findIndex (λ book, (id book =? id targetBook)%Z) (validBooks allBooks) = Some i →
  bws_book <$> getRec targetBook allBooks topN ⊆+ delete i (validBooks allBooks).
Proof.
  intros Hi. rewrite (getRecommendations_found _ _ _ _ _ i Hi).
  rewrite <- (similarities_books (validBooks allBooks) i).
  apply fmap_submseteq.
  etrans; [apply slice0_submseteq|].
  apply Permutation_submseteq, sort_perm.
Qed.

(** X5.  The items of the result are items of the corpus that carry a
    genre, none of them taken more often than the corpus has it. *)
Theorem getRecommendations_from_corpus targetBook allBooks topN :
  bws_book <$> getRecommendations calculateTFIDF cosineSimilarity
                 targetBook allBooks topN ⊆+ allBooks ∧
  ∀ r, r ∈ getRecommendations calculateTFIDF cosineSimilarity targetBook allBooks topN →
       has_genre (bws_book r) = true.
Proof.
  assert (bws_book <$> getRec targetBook allBooks topN ⊆+ validBooks allBooks) as Hsub.
  { destruct (findIndex (λ book, (id book =? id targetBook)%Z) (validBooks allBooks))
      as [i|] eqn:Hi.
    - etrans; [by apply getRecommendations_books|].
      apply sublist_submseteq, sublist_delete.
    - rewrite getRecommendations_not_found by done. apply submseteq_nil_l. }
  split.
  - etrans; [exact Hsub|].
    apply sublist_submseteq, (sublist_filter (λ book, has_genre book)).
  - intros r Hr.
    assert (bws_book r ∈ validBooks allBooks) as [_ ?]%elem_of_validBooks; [|done].
    eapply elem_of_submseteq; [|exact Hsub]. by apply list_elem_of_fmap_2.
Qed.

(** X6.  When [topN] is at least the number of the other genre-carrying
    items, the result ranks every genre-carrying item except the one at
    the position of the target, each once. *)
Theorem getRecommendations_complete targetBook allBooks topN i :
  findIndex (λ book, (id book =? id targetBook)%Z) (validBooks allBooks) = Some i →
  (Z.of_nat (length (validBooks allBooks)) - 1 ≤ topN)%Z →
  bws_book <$> getRec targetBook allBooks topN ≡ₚ delete i (validBooks allBooks).
Proof.
  intros Hi Hn. rewrite (getRecommendations_found _ _ _ _ _ i Hi).
  rewrite <- (similarities_books (validBooks allBooks) i).
  apply fmap_Permutation.
  pose proof (findIndex_lt _ _ _ Hi) as Hlt.
  rewrite slice0_nonneg by lia.
  rewrite take_ge; [apply sort_perm|].
  rewrite sort_length, length_similarities by done. lia.
Qed.

(** X7.  Items without genre play no part: the result is the one for the
    corpus with these items removed. *)
Theorem getRecommendations_ignores_unlabelled targetBook allBooks topN :
  getRecommendations calculateTFIDF cosineSimilarity
    targetBook (validBooks allBooks) topN
  = getRecommendations calculateTFIDF cosineSimilarity targetBook allBooks topN.
Proof.
  unfold getRecommendations.
  assert (validBooks (validBooks allBooks) = validBooks allBooks) as ->; [|done].
  unfold validBooks. apply list_filter_filter_l. done.
Qed.

(** X8.  The empty query matches every title: [getRecommendationsByTitle]
    then takes the first item of the corpus as the target. *)
Theorem getRecommendationsByTitle_empty_query first rest topN :
  getRecommendationsByTitle calculateTFIDF cosineSimilarity
    EmptyString (first :: rest) topN
  = getRecommendations calculateTFIDF cosineSimilarity first (first :: rest) topN.
Proof.
  unfold getRecommendationsByTitle. simpl.
  assert (title_matches EmptyString first = true) as ->; [|done].
  apply title_matches_spec. exists EmptyString, (JSString.toLowerCase (title first)).
  reflexivity.
Qed.

End RankedListFacts.

(** ** The personalized ranking *)


Lemma descending_Qle (r1 r2 : BookWithSimilarity Q) :
  descending r1 r2 ↔ (similarity r2 <= similarity r1)%Q.
Proof.
  unfold descending. change (num_compare (similarity r1) (similarity r2))
    with (similarity r1 ?= similarity r2)%Q.
  rewrite <- Qlt_alt. split; [apply Qnot_lt_le | apply Qle_not_lt].
Qed.

Lemma StronglySorted_Qle (l : list (BookWithSimilarity Q)) :
  Sorted descending l →
  StronglySorted (λ r1 r2, (similarity r2 <= similarity r1)%Q) l.
Proof.
  intros Hl.
  assert (Sorted (λ r1 r2 : BookWithSimilarity Q,
                    (similarity r2 <= similarity r1)%Q) l) as Hl'.
  { induction Hl as [|r l Hl IH Hr]; constructor; [done|].
    destruct Hr; constructor. by apply descending_Qle. }
  apply Sorted_StronglySorted; [|done].
  intros r1 r2 r3 H12 H23. by apply (Qle_trans _ (similarity r2)).
Qed.

Section PersonalizedRanking.
Variable userHistoryGenres : gmap string Q.
Variable allBooks : list Book.

Abbreviation personalized clock candidateBooks topN :=
  (getPersonalizedRecommendations clock userHistoryGenres candidateBooks allBooks topN).
Abbreviation scoreAll := (scoreBooks userHistoryGenres allBooks).

Lemma personalized_unfold clock candidateBooks topN :
  personalized clock candidateBooks topN
  = slice0 (sort bySimilarityDesc (scoreAll clock 0 candidateBooks))
      (normalizedTopN topN).
Proof.
  unfold getPersonalizedRecommendations.
  destruct candidateBooks; [simpl; by rewrite slice0_nil | done].
Qed.

Lemma personalized_returns_candidates_sub clock candidateBooks topN :
  bws_book <$> personalized clock candidateBooks topN ⊆+ candidateBooks.
Proof.
  rewrite personalized_unfold.
  rewrite <- (scoreBooks_books userHistoryGenres allBooks clock 0 candidateBooks) at 2.
  apply fmap_submseteq. etrans; [apply slice0_submseteq|].
  apply Permutation_submseteq, sort_perm.
Qed.

(** X9.  Every returned item is a candidate, none returned more often
    than the pool has it; a pool that is not larger than the clamped count,
    in particular one of at most ten items, is returned whole, reordered. *)
Theorem personalized_returns_candidates clock candidateBooks topN :
  bws_book <$> personalized clock candidateBooks topN ⊆+ candidateBooks ∧
  ((Z.of_nat (length candidateBooks) ≤ normalizedTopN topN)%Z →
   bws_book <$> personalized clock candidateBooks topN ≡ₚ candidateBooks) ∧
  ((length candidateBooks ≤ 10)%nat →
   bws_book <$> personalized clock candidateBooks topN ≡ₚ candidateBooks).
Proof.
  rewrite personalized_unfold.
  assert ((Z.of_nat (length candidateBooks) ≤ normalizedTopN topN)%Z →
          bws_book <$> slice0 (sort bySimilarityDesc (scoreAll clock 0 candidateBooks))
                         (normalizedTopN topN) ≡ₚ candidateBooks) as Hwhole.
  { intros Hsmall. pose proof (normalizedTopN_range topN).
    rewrite slice0_nonneg by lia. rewrite take_ge.
    - rewrite (sort_perm bySimilarityDesc). by rewrite scoreBooks_books.
    - rewrite sort_length, length_scoreBooks. lia. }
  split_and!; [|done|].
  - rewrite <- (scoreBooks_books userHistoryGenres allBooks clock 0 candidateBooks) at 2.
    apply fmap_submseteq. etrans; [apply slice0_submseteq|].
    apply Permutation_submseteq, sort_perm.
  - intros Hten. apply Hwhole. pose proof (normalizedTopN_range topN). lia.
Qed.

(** X10.  The result is the top of the ranking: it is in descending
    order of score, and no scored candidate that is left out has a higher
    score than one that is returned. *)
Theorem personalized_keeps_the_best clock candidateBooks topN :
  StronglySorted (λ r1 r2, (similarity r2 <= similarity r1)%Q)
    (getPersonalizedRecommendations clock userHistoryGenres
       candidateBooks allBooks topN) ∧
  ∀ r s,
    r ∈ getPersonalizedRecommendations clock userHistoryGenres
          candidateBooks allBooks topN →
    s ∈ scoreBooks userHistoryGenres allBooks clock 0 candidateBooks →
    s ∉ getPersonalizedRecommendations clock userHistoryGenres
          candidateBooks allBooks topN →
    (similarity s <= similarity r)%Q.
Proof.
  rewrite personalized_unfold.
  set (ranked := sort bySimilarityDesc (scoreAll clock 0 candidateBooks)).
  assert (StronglySorted (λ r1 r2 : BookWithSimilarity Q,
                            (similarity r2 <= similarity r1)%Q) ranked) as Hranked.
  { apply StronglySorted_Qle, Sorted_sort;
      [apply bySimilarityDesc_keep | apply bySimilarityDesc_swap]. }
  destruct (slice0_prefix ranked (normalizedTopN topN)) as [rest Hrest].
  split.
  - rewrite Hrest in Hranked. by apply StronglySorted_app_1_l in Hranked.
  - intros r s Hr Hs Hout.
    assert (s ∈ rest) as Hs'.
    { apply (elem_of_sort bySimilarityDesc) in Hs. fold ranked in Hs.
      rewrite Hrest in Hs. by apply elem_of_app in Hs as [?|?]. }
    rewrite Hrest in Hranked.
    apply (StronglySorted_app_1_elem_of _ _ _ r s Hranked Hr Hs').
Qed.

End PersonalizedRanking.

(** ** The popularity index *)

Section PopularityFacts.
Variable allBooks : list Book.

(** X11.  The popularity index maps an identifier to the view count, 0
    when the count is missing, of the last item of the corpus with this
    identifier; an identifier that no item has is not in the index, and
    with pairwise distinct identifiers every item finds its own count. *)
Theorem bookPopularity_lookup :
  (∀ i, bookPopularity allBooks !! i
        = (λ book, default 0%Q (view_count book))
            <$> last (filter (λ book, id book = i) allBooks)) ∧
  (∀ i, (∀ book, book ∈ allBooks → id book ≠ i) → bookPopularity allBooks !! i = None) ∧
  (NoDup (id <$> allBooks) →
   ∀ book, book ∈ allBooks →
     bookPopularity allBooks !! id book = Some (default 0%Q (view_count book))).
Proof.
  split_and!.
  - apply bookPopularity_last.
  - intros i Hnone. rewrite bookPopularity_last.
    destruct (last (filter (λ book, id book = i) allBooks)) as [book|] eqn:Hlast; [|done].
    apply last_Some_elem_of, list_elem_of_filter in Hlast as [Hid Hbook].
    by destruct (Hnone book Hbook).
  - intros Hnodup book Hbook. rewrite bookPopularity_last.
    destruct (last (filter (λ b, id b = id book) allBooks)) as [other|] eqn:Hlast.
    + apply last_Some_elem_of, list_elem_of_filter in Hlast as [Hid Hother].
      apply list_elem_of_lookup in Hbook as [j Hj], Hother as [k Hk].
      assert (k = j) as ->.
      { apply (NoDup_lookup (id <$> allBooks) k j (id book) Hnodup).
        - by rewrite list_lookup_fmap, Hk, <- Hid.
        - by rewrite list_lookup_fmap, Hj. }
      rewrite Hj in Hk. by injection Hk as ->.
    + apply last_None in Hlast.
      assert (book ∈ filter (λ b, id b = id book) allBooks) as Hin
        by (by apply list_elem_of_filter).
      rewrite Hlast in Hin. by apply elem_of_nil in Hin.
Qed.

Lemma unit_fraction (a b : Q) :
  (0 <= a)%Q → (a <= b)%Q → (1 <= b)%Q → (0 <= a / b)%Q ∧ (a / b <= 1)%Q.
Proof.
  intros Ha Hab Hb. assert (0 < b)%Q by lra. split.
  - apply Qle_shift_div_l; [done | lra].
  - apply Qle_shift_div_r; [done | lra].
Qed.

Lemma popularity_fraction_bounds book :
  (∀ other, other ∈ allBooks → (0 <= default 0 (view_count other))%Q) →
  (1 <= maxPopularity allBooks)%Q ∧
  (0 <= default 0 (bookPopularity allBooks !! id book) / maxPopularity allBooks)%Q ∧
  (default 0 (bookPopularity allBooks !! id book) / maxPopularity allBooks <= 1)%Q.
Proof.
  intros Hviews. destruct (maxPopularity_bounds allBooks) as [Hone Hbest].
  split; [done|]. apply unit_fraction; [| |done].
  - rewrite bookPopularity_last.
    destruct (last _) as [other|] eqn:Hlast; simpl; [|lra].
    apply Hviews. by apply last_Some_elem_of, list_elem_of_filter in Hlast as [_ ?].
  - destruct (bookPopularity allBooks !! id book) as [views|] eqn:Hviews'; simpl.
    + by apply (Hbest (id book)).
    + lra.
Qed.

(** X12.  When no view count of the corpus is negative, the normalized
    popularity of any item, in the corpus or not, lies between 0 and 1, the
    maximum of the index being floored at 1. *)
Theorem normalized_popularity_unit book :
  (∀ other, other ∈ allBooks → (0 <= default 0 (view_count other))%Q) →
  (1 <= maxPopularity allBooks)%Q ∧
  (0 <= default 0 (bookPopularity allBooks !! id book) / maxPopularity allBooks)%Q ∧
  (default 0 (bookPopularity allBooks !! id book) / maxPopularity allBooks <= 1)%Q.
Proof. apply popularity_fraction_bounds. Qed.

End PopularityFacts.

(** ** The recency bonus and the range of the score *)

Lemma recency_term_bounds (now c : Z) :
  let term := Qmax 0 (1 - daysSinceCreated now c / 365) in
  (0 <= term)%Q ∧
  ((c ≤ now)%Z → (term <= 1)%Q) ∧
  ((c + msPerYear ≤ now)%Z → term == 0) ∧
  (now = c → term == 1).
Proof.
  simpl. unfold daysSinceCreated, Qdiv.
  change (/ inject_Z (1000 * 60 * 60 * 24))%Q with (1 # 86400000)%Q.
  change (/ 365)%Q with (1 # 365)%Q.
  split_and!.
  - apply Q.le_max_l.
  - intros Hle. apply Q.max_lub; [lra|].
    assert (inject_Z 0 <= inject_Z (now - c))%Q as Hq by (rewrite <- Zle_Qle; lia).
    change (inject_Z 0) with 0%Q in Hq. lra.
  - intros Hold. apply Q.max_l.
    assert (inject_Z msPerYear <= inject_Z (now - c))%Q as Hq
      by (rewrite <- Zle_Qle; lia).
    change (inject_Z msPerYear) with (31536000000 # 1)%Q in Hq. lra.
  - intros ->. rewrite Z.sub_diag. change (inject_Z 0) with 0%Q.
    rewrite Q.max_r by lra. lra.
Qed.

Lemma recency_term_decays (now1 now2 c : Z) :
  (now1 ≤ now2)%Z →
  (Qmax 0 (1 - daysSinceCreated now2 c / 365)
   <= Qmax 0 (1 - daysSinceCreated now1 c / 365))%Q.
Proof.
  intros Hle. apply Q.max_le_compat_l.
  unfold daysSinceCreated, Qdiv.
  change (/ inject_Z (1000 * 60 * 60 * 24))%Q with (1 # 86400000)%Q.
  change (/ 365)%Q with (1 # 365)%Q.
  assert (inject_Z (now1 - c) <= inject_Z (now2 - c))%Q by (rewrite <- Zle_Qle; lia).
  lra.
Qed.

Section ScoreFacts.
Variable userHistoryGenres : gmap string Q.
Variable allBooks : list Book.

Abbreviation score := (scoreBook userHistoryGenres allBooks).

Lemma scoreBook_dated now book c :
  created_at book = Some c →
  score now book
  = (score now (undated book) + Qmax 0 (1 - daysSinceCreated now c / 365) * 0.3)%Q.
Proof. intros Hc. unfold scoreBook. rewrite Hc. reflexivity. Qed.

Lemma scoreBook_undated_any now1 now2 book :
  score now1 (undated book) = score now2 (undated book).
Proof. reflexivity. Qed.

(** X13.  The recency bonus of a dated item: it is never negative and at
    most 0.3 once the creation time has passed, it is the full 0.3 at the
    creation time, it is gone after 365 days, and the score of the item
    never rises as the clock advances. *)
Theorem recency_bonus_decays book c :
  created_at book = Some c →
  (∀ now, (score now (undated book) <= score now book)%Q) ∧
  (∀ now, (c ≤ now)%Z → (score now book <= score now (undated book) + 0.3)%Q) ∧
  (score c book == score c (undated book) + 0.3)%Q ∧
  (∀ now, (c + msPerYear ≤ now)%Z → (score now book == score now (undated book))%Q) ∧
  (∀ now1 now2, (now1 ≤ now2)%Z → (score now2 book <= score now1 book)%Q).
Proof.
  intros Hc. split_and!.
  - intros now. rewrite (scoreBook_dated now book c Hc).
    destruct (recency_term_bounds now c) as (Hpos & _). simpl in Hpos. lra.
  - intros now Hnow. rewrite (scoreBook_dated now book c Hc).
    destruct (recency_term_bounds now c) as (_ & Hone & _). simpl in Hone.
    specialize (Hone Hnow). lra.
  - rewrite (scoreBook_dated c book c Hc).
    destruct (recency_term_bounds c c) as (_ & _ & _ & Hfull). simpl in Hfull.
    rewrite (Hfull eq_refl). lra.
  - intros now Hold. rewrite (scoreBook_dated now book c Hc).
    destruct (recency_term_bounds now c) as (_ & _ & Hgone & _). simpl in Hgone.
    rewrite (Hgone Hold). lra.
  - intros now1 now2 Hle.
    rewrite (scoreBook_dated now1 book c Hc), (scoreBook_dated now2 book c Hc).
    rewrite (scoreBook_undated_any now2 now1).
    pose proof (recency_term_decays now1 now2 c Hle). lra.
Qed.

End ScoreFacts.

(** *** The total of the profile and the weight of a set of labels *)

Lemma totalUserViews_insert (profile : gmap string Q) genre views :
  profile !! genre = None →
  (totalUserViews (<[genre:=views]> profile) == totalUserViews profile + views)%Q.
Proof.
  intros Hfresh. unfold totalUserViews.
  apply (map_fold_insert Qeq (λ _ views total, (total + views)%Q)); [|..|done].
  - intros _ z x y Hxy. by rewrite Hxy.
  - intros j1 j2 z1 z2 y _ _ _. ring.
Qed.

Lemma totalUserViews_delete (profile : gmap string Q) genre views :
  profile !! genre = Some views →
  (totalUserViews profile == totalUserViews (delete genre profile) + views)%Q.
Proof.
  intros Hgenre. rewrite <- (insert_delete_id profile genre views Hgenre) at 1.
  apply totalUserViews_insert, lookup_delete_eq.
Qed.

Lemma totalUserViews_nonneg (profile : gmap string Q) :
  map_Forall (λ _ views, (0 <= views)%Q) profile → (0 <= totalUserViews profile)%Q.
Proof.
  unfold totalUserViews.
  apply (map_fold_weak_ind (λ total (m : gmap string Q),
           map_Forall (λ _ views, (0 <= views)%Q) m → (0 <= total)%Q)).
  - intros _. lra.
  - intros genre views m total Hfresh IH [Hviews Hm]%map_Forall_insert; [|done].
    specialize (IH Hm). lra.
Qed.

Lemma profileWeight_nonneg (profile : gmap string Q) labels :
  map_Forall (λ _ views, (0 <= views)%Q) profile → (0 <= profileWeight profile labels)%Q.
Proof.
  intros Hprofile. induction labels as [|label labels IH]; simpl; [lra|].
  assert (0 <= default 0 (profile !! label))%Q; [|lra].
  destruct (profile !! label) as [views|] eqn:Hlabel; simpl; [|lra].
  by apply (Hprofile label).
Qed.

Lemma profileWeight_delete (profile : gmap string Q) genre labels :
  genre ∉ labels →
  profileWeight (delete genre profile) labels = profileWeight profile labels.
Proof.
  induction labels as [|label labels IH]; simpl; [done|].
  intros [Hne Hrest]%not_elem_of_cons.
  by rewrite IH, lookup_delete_ne.
Qed.

Lemma profileWeight_le_total (profile : gmap string Q) labels :
  NoDup labels → map_Forall (λ _ views, (0 <= views)%Q) profile →
  (profileWeight profile labels <= totalUserViews profile)%Q.
Proof.
  intros Hlabels. revert profile.
  induction Hlabels as [|label labels Hfresh Hlabels IH]; intros profile Hprofile; simpl.
  - by apply totalUserViews_nonneg.
  - destruct (profile !! label) as [views|] eqn:Hlabel; simpl.
    + rewrite (totalUserViews_delete profile label views Hlabel).
      rewrite <- (profileWeight_delete profile label labels Hfresh).
      assert (profileWeight (delete label profile) labels
              <= totalUserViews (delete label profile))%Q; [|lra].
      apply IH. by apply map_Forall_delete.
    + specialize (IH profile Hprofile). lra.
Qed.

Section ScoreRange.
Variable userHistoryGenres : gmap string Q.
Variable allBooks : list Book.

Abbreviation score := (scoreBook userHistoryGenres allBooks).

Hypothesis profile_nonneg : map_Forall (λ _ views, (0 <= views)%Q) userHistoryGenres.
Hypothesis views_nonneg :
  ∀ other, other ∈ allBooks → (0 <= default 0 (view_count other))%Q.

Lemma genre_part_unit labels :
  NoDup labels →
  (0 <= genreMatchWeight userHistoryGenres labels
        / normalizedUserViews userHistoryGenres)%Q ∧
  (genreMatchWeight userHistoryGenres labels
   / normalizedUserViews userHistoryGenres <= 1)%Q.
Proof.
  intros Hlabels. unfold genreMatchWeight, normalizedUserViews.
  rewrite genreMatchWeight_sum.
  pose proof (profileWeight_nonneg userHistoryGenres labels profile_nonneg).
  pose proof (profileWeight_le_total userHistoryGenres labels Hlabels profile_nonneg).
  pose proof (Q.le_max_l (totalUserViews userHistoryGenres) 1).
  pose proof (Q.le_max_r (totalUserViews userHistoryGenres) 1).
  apply unit_fraction; lra.
Qed.

Lemma scoreBook_undated_range now book :
  NoDup (bookLabels book) →
  (0 <= score now (undated book))%Q ∧ (score now (undated book) <= 0.7)%Q.
Proof.
  intros Hlabels. unfold scoreBook. simpl.
  destruct (popularity_fraction_bounds allBooks book views_nonneg) as (_ & Hp0 & Hp1).
  change (has_genre (undated book)) with (has_genre book).
  unfold bookLabels in Hlabels. destruct (has_genre book).
  - destruct (genre_part_unit _ Hlabels) as [Hg0 Hg1]. lra.
  - lra.
Qed.

Lemma scoreBook_range now book :
  NoDup (bookLabels book) →
  (∀ c, created_at book = Some c → (c ≤ now)%Z) →
  (0 <= score now book)%Q ∧ (score now book <= 1)%Q.
Proof.
  intros Hlabels Hpast.
  destruct (scoreBook_undated_range now book Hlabels) as [H0 H1].
  destruct (created_at book) as [c|] eqn:Hc.
  - rewrite (scoreBook_dated _ _ now book c Hc).
    destruct (recency_term_bounds now c) as (Hpos & Hone & _). simpl in Hpos, Hone.
    specialize (Hone (Hpast c eq_refl)). lra.
  - assert (score now book = score now (undated book)) as ->; [|lra].
    unfold scoreBook. by rewrite Hc.
Qed.

(** X14.  Every returned score lies between 0 and 1 when the profile
    weights and the view counts are not negative, no candidate repeats a
    genre label, and no candidate is dated after the readings of the
    clock. *)
Theorem personalized_scores_unit clock candidateBooks topN r :
  (∀ book, book ∈ candidateBooks → NoDup (bookLabels book)) →
  (∀ book c k, book ∈ candidateBooks → created_at book = Some c → (c ≤ clock k)%Z) →
  r ∈ getPersonalizedRecommendations clock userHistoryGenres
        candidateBooks allBooks topN →
  (0 <= similarity r)%Q ∧ (similarity r <= 1)%Q.
Proof.
  intros Hlabels Hpast. rewrite personalized_unfold.
  intros Hr%elem_of_slice0%elem_of_sort.
  apply list_elem_of_lookup in Hr as [k Hk].
  assert (is_Some (candidateBooks !! k)) as [book Hbook].
  { apply lookup_lt_is_Some.
    rewrite <- (length_scoreBooks userHistoryGenres allBooks clock 0).
    by apply lookup_lt_Some in Hk. }
  rewrite (lookup_scoreBooks _ _ clock 0 candidateBooks k book Hbook) in Hk.
  injection Hk as <-. simpl.
  assert (book ∈ candidateBooks) as Hin by (by eapply list_elem_of_lookup_2).
  apply scoreBook_range; [by apply Hlabels|].
  intros c Hc. by apply (Hpast book).
Qed.

End ScoreRange.

(** ** The recommendation routes *)

Lemma userGenrePrefs_snoc history entry :
  userGenrePrefs (history ++ [entry])
  = <[JSString.toLowerCase (history_genre_name entry) :=
        (default 0 (userGenrePrefs history
                      !! JSString.toLowerCase (history_genre_name entry))
         + views entry)%Q]> (userGenrePrefs history).
Proof. unfold userGenrePrefs. by rewrite foldl_app. Qed.

Lemma sumViews_app l1 l2 : (sumViews (l1 ++ l2) == sumViews l1 + sumViews l2)%Q.
Proof.
  induction l1 as [|entry l1 IH]; simpl; [ring|]. rewrite IH. ring.
Qed.

Lemma userGenrePrefs_views history genre :
  (default 0 (userGenrePrefs history !! genre)
   == sumViews (filter (λ entry, JSString.toLowerCase (history_genre_name entry) = genre)
                  history))%Q.
Proof.
  induction history as [|entry history IH] using rev_ind; [reflexivity|].
  rewrite userGenrePrefs_snoc, filter_app, sumViews_app, filter_cons, filter_nil.
  destruct (decide (JSString.toLowerCase (history_genre_name entry) = genre)) as [<-|Hne].
  - rewrite lookup_insert_eq. simpl. rewrite IH. ring.
  - rewrite lookup_insert_ne by done. rewrite IH. simpl. ring.
Qed.

Lemma userGenrePrefs_dom history :
  dom (userGenrePrefs history)
  = list_to_set ((λ entry, JSString.toLowerCase (history_genre_name entry)) <$> history).
Proof.
  induction history as [|entry history IH] using rev_ind; [done|].
  rewrite userGenrePrefs_snoc, dom_insert_L, IH, fmap_app, list_to_set_app_L. simpl.
  by rewrite (right_id_L ∅ (∪)), (comm_L (∪)).
Qed.

Lemma totalUserViews_userGenrePrefs history :
  (totalUserViews (userGenrePrefs history) == sumViews history)%Q.
Proof.
  induction history as [|entry history IH] using rev_ind; [reflexivity|].
  rewrite userGenrePrefs_snoc, sumViews_app. simpl.
  set (genre := JSString.toLowerCase (history_genre_name entry)).
  destruct (userGenrePrefs history !! genre) as [count|] eqn:Hgenre; simpl.
  - rewrite <- insert_delete_eq.
    rewrite totalUserViews_insert by apply lookup_delete_eq.
    rewrite (totalUserViews_delete _ genre count Hgenre) in IH. lra.
  - rewrite totalUserViews_insert by done. lra.
Qed.

(** X15.  The profile built from the history of a user gives every
    lower-cased genre name of the history the sum of the views of the rows
    of this genre, has no other key, and its total is the sum of all views
    of the history. *)
Theorem userGenrePrefs_accumulates history :
  (∀ genre,
     (default 0 (userGenrePrefs history !! genre)
      == sumViews (filter (λ entry,
                             JSString.toLowerCase (history_genre_name entry) = genre)
                     history))%Q) ∧
  dom (userGenrePrefs history)
  = list_to_set ((λ entry, JSString.toLowerCase (history_genre_name entry)) <$> history) ∧
  (totalUserViews (userGenrePrefs history) == sumViews history)%Q.
Proof.
  split_and!; [intros genre; apply userGenrePrefs_views | apply userGenrePrefs_dom
              | apply totalUserViews_userGenrePrefs].
Qed.

Lemma elem_of_candidateBooksOf history books book :
  book ∈ candidateBooksOf history books ↔
  book ∈ books ∧ ∀ entry, entry ∈ history → id book ≠ book_id entry.
Proof.
  unfold candidateBooksOf, viewedBookIds.
  rewrite list_elem_of_filter, elem_of_list_to_set, list_elem_of_fmap. split.
  - intros [Hnew Hbook]. split; [done|]. intros entry Hentry Hid.
    apply Hnew. by exists entry.
  - intros [Hbook Hnew]. split; [|done]. intros (entry & Hid & Hentry).
    by apply (Hnew entry).
Qed.

(** X16.  The personalized routes never recommend a book that is in the
    history of the user; for a user with history they answer with fifteen
    books, or with all the books the user has not viewed when these are
    fewer, each taken from the rows of the catalog. *)
Theorem personal_recommendations_are_new clock history popularRows allRows :
  (∀ r entry, r ∈ personalRecommendations clock history popularRows allRows →
              entry ∈ history → id (bws_book r) ≠ book_id entry) ∧
  (history ≠ [] →
   length (personalRecommendations clock history popularRows allRows)
   = Nat.min (length (candidateBooksOf history (withViewCount <$> allRows))) 15 ∧
   ∀ r, r ∈ personalRecommendations clock history popularRows allRows →
        ∃ row, row ∈ allRows ∧ bws_book r = withViewCount row).
Proof.
  assert (∀ r, history ≠ [] →
            r ∈ personalRecommendations clock history popularRows allRows →
            bws_book r ∈ candidateBooksOf history (withViewCount <$> allRows)) as Hcand.
  { intros r Hhistory. unfold personalRecommendations.
    destruct history; [done|]. simpl length. simpl Nat.eqb. cbv iota.
    intros Hr. eapply elem_of_submseteq; [by apply list_elem_of_fmap_2|].
    apply personalized_returns_candidates_sub. }
  split.
  - intros r entry Hr Hentry.
    assert (history ≠ []) as Hhistory by (intros ->; by apply elem_of_nil in Hentry).
    apply (Hcand r Hhistory), elem_of_candidateBooksOf in Hr as [_ Hnew]. by apply Hnew.
  - intros Hhistory. split.
    + unfold personalRecommendations. destruct history; [done|].
      simpl length. simpl Nat.eqb. cbv iota.
      by rewrite length_getPersonalizedRecommendations.
    + intros r Hr.
      apply (Hcand r Hhistory), elem_of_candidateBooksOf in Hr as [Hrow _].
      apply list_elem_of_fmap in Hrow as (row & -> & Hrow). by exists row.
Qed.

Section RouteFacts.
Context {num : Type} `{JSNumber num}.
Variable calculateTFIDF : list string → gmap nat (gmap string num).
Variable cosineSimilarity : gmap string num → gmap string num → num.

Lemma find_Some_elem_of {A} (p : A → bool) (l : list A) x :
  find p l = Some x → x ∈ l ∧ p x = true.
Proof.
  induction l as [|y l IH]; simpl; [done|].
  destruct (p y) eqn:Hy.
  - intros [= ->]. split; [left | done].
  - intros [Hx Hp]%IH. split; [by right | done].
Qed.

(** X17.  When [GET /recommend?title=...] answers with recommendations,
    the target book it reports is defined: it is the first book whose title
    contains the query, the recommendations are those of
    [getRecommendations] for this book, and there are between one and ten
    of them. *)
Theorem recommendByTitle_reports_target param books targetBook recommendations :
  recommendByTitle calculateTFIDF cosineSimilarity param books
  = Recommendations targetBook recommendations →
  ∃ query target,
    param = Some query ∧ query ≠ EmptyString ∧
    targetBook = Some target ∧
    find (title_matches query) books = Some target ∧
    target ∈ books ∧ contains_ci (title target) query ∧
    recommendations
    = getRecommendations calculateTFIDF cosineSimilarity target books 10 ∧
    (1 ≤ length recommendations ≤ 10)%nat.
Proof.
  unfold recommendByTitle.
  destruct param as [query|]; [|done].
  destruct (decide (query = EmptyString)) as [->|Hquery]; [done|].
  assert (match query with
          | EmptyString => TitleRequired
          | String _ _ =>
              if (length books =? 0)%nat then NoBooksAvailable
              else if (length (getRecommendationsByTitle calculateTFIDF
                                 cosineSimilarity query books 10) =? 0)%nat
                   then NoSimilarBooks
                   else Recommendations (find (title_matches query) books)
                          (getRecommendationsByTitle calculateTFIDF
                             cosineSimilarity query books 10)
          end
          = if (length books =? 0)%nat then NoBooksAvailable
            else if (length (getRecommendationsByTitle calculateTFIDF
                               cosineSimilarity query books 10) =? 0)%nat
                 then NoSimilarBooks
                 else Recommendations (find (title_matches query) books)
                        (getRecommendationsByTitle calculateTFIDF
                           cosineSimilarity query books 10)) as ->
    by (by destruct query).
  destruct (length books =? 0)%nat; [done|].
  destruct (Nat.eqb_spec (length (getRecommendationsByTitle calculateTFIDF
                                    cosineSimilarity query books 10)) 0)
    as [|Hlen]; [done|].
  intros [= <- <-].
  unfold getRecommendationsByTitle in *.
  destruct (find (title_matches query) books) as [target|] eqn:Hfind; [|done].
  exists query, target.
  destruct (find_Some_elem_of _ _ _ Hfind) as [Hin Hmatch].
  split_and!; try done.
  - by apply title_matches_spec.
  - lia.
  - pose proof (slice0_submseteq (A := BookWithSimilarity num)) as Hsub.
    unfold getRecommendations.
    destruct (length (validBooks books) =? 0)%nat; [simpl; lia|].
    destruct (findIndex _ _); [|simpl; lia].
    pose proof (length_slice0
                  (sort bySimilarityDesc
                     (similarities calculateTFIDF cosineSimilarity (validBooks books) n))
                  10) as Hten.
    simpl in Hten. lia.
Qed.

(** X18.  The result of [getRecommendations] is in descending order of
    similarity: no entry has a lower similarity than the entry after it. *)
Theorem getRecommendations_descending targetBook allBooks topN :
  Sorted descending
    (getRecommendations calculateTFIDF cosineSimilarity targetBook allBooks topN).
Proof. apply rankings_descending. Qed.

End RouteFacts.

(** ** The further properties on the sample data *)

Section MoreSamples.
Import Examples MoreExamples.

Abbreviation getRecR := (getRecommendations Tfidf.calculateTFIDF Tfidf.cosineSimilarity).

Lemma genre_vector_marks_labels_witness :
  pemimpi ∈ catalog ∧
  ∀ g, g ∈ bookLabels pemimpi →
    ∃ i, extractAllGenres catalog !! i = Some g ∧
         createGenreVector (num := Q) pemimpi (extractAllGenres catalog) !! i
         = Some 1%Q.
Proof.
  assert (pemimpi ∈ catalog) as Hin by (right; left).
  split; [exact Hin|].
  exact (proj2 (proj2 (genre_vector_marks_labels (num := Q) catalog pemimpi Hin))).
Defined.

Lemma combineVectors_lookup_witness :
  "laskar" ∈ titleVocabulary ∧
  combineVectors titleWeights genreEntries ∅ titleVocabulary synopsisVocabulary
    !! ("title_" +:+ "laskar")
  = Some (default 0%Q (titleWeights !! "laskar")).
Proof.
  assert ("laskar" ∈ titleVocabulary) as Hin.
  { apply (bool_decide_unpack ("laskar" ∈ titleVocabulary)). vm_compute. exact I. }
  split; [exact Hin|].
  exact (proj1 (combineVectors_lookup titleWeights genreEntries ∅
                  titleVocabulary synopsisVocabulary) "laskar" Hin).
Defined.

Lemma getRecommendations_length_witness :
  findIndex (λ book, (id book =? id laskar)%Z) (validBooks catalog) = Some 0%nat ∧
  Z.of_nat (length (getRecR laskar catalog 1))
  = Z.min 1 (Z.of_nat (length (validBooks catalog)) - 1).
Proof.
  assert (findIndex (λ book, (id book =? id laskar)%Z) (validBooks catalog) = Some 0%nat)
    as Hfound by reflexivity.
  split; [exact Hfound|].
  exact (getRecommendations_length Tfidf.calculateTFIDF Tfidf.cosineSimilarity
           laskar catalog 1 0 Hfound).
Defined.

Lemma getRecommendations_from_corpus_witness :
  ∃ r, r ∈ getRecR laskar catalog 10 ∧ has_genre (bws_book r) = true.
Proof.
  destruct (getRecommendations_ranks Tfidf.calculateTFIDF Tfidf.cosineSimilarity
              laskar catalog 10 0 1 pemimpi) as (r & Hr & _).
  - reflexivity.
  - vm_compute. discriminate.
  - reflexivity.
  - lia.
  - exists r. split; [exact Hr|].
    exact (proj2 (getRecommendations_from_corpus Tfidf.calculateTFIDF
                    Tfidf.cosineSimilarity laskar catalog 10) r Hr).
Defined.

Lemma getRecommendations_complete_witness :
  findIndex (λ book, (id book =? id laskar)%Z) (validBooks catalog) = Some 0%nat ∧
  (Z.of_nat (length (validBooks catalog)) - 1 ≤ 10)%Z ∧
  bws_book <$> getRecR laskar catalog 10 ≡ₚ delete 0%nat (validBooks catalog).
Proof.
  assert (findIndex (λ book, (id book =? id laskar)%Z) (validBooks catalog) = Some 0%nat)
    as Hfound by reflexivity.
  assert (Z.of_nat (length (validBooks catalog)) - 1 ≤ 10)%Z as Hfew
    by (vm_compute; discriminate).
  split_and!; [exact Hfound | exact Hfew |].
  exact (getRecommendations_complete Tfidf.calculateTFIDF Tfidf.cosineSimilarity
           laskar catalog 10 0 Hfound Hfew).
Defined.

Lemma personalized_returns_candidates_witness :
  (length catalog ≤ 10)%nat ∧
  bws_book <$> getPersonalizedRecommendations midnight fantasyReader catalog catalog 15
  ≡ₚ catalog.
Proof.
  assert (length catalog ≤ 10)%nat as Hfew by (simpl; lia).
  split; [exact Hfew|].
  exact (proj2 (proj2 (personalized_returns_candidates fantasyReader catalog
                         midnight catalog 15)) Hfew).
Defined.

Lemma personalized_keeps_the_best_witness :
  dongengScored ∈ getPersonalizedRecommendations midnight fantasyReader shelf shelf 10 ∧
  atlasScored ∈ scoreBooks fantasyReader shelf midnight 0 shelf ∧
  (atlasScored ∉ getPersonalizedRecommendations midnight fantasyReader shelf shelf 10) ∧
  (similarity atlasScored <= similarity dongengScored)%Q.
Proof.
  assert (dongengScored
          ∈ getPersonalizedRecommendations midnight fantasyReader shelf shelf 10)
    as Hin by (vm_compute; repeat constructor).
  assert (atlasScored ∈ scoreBooks fantasyReader shelf midnight 0 shelf) as Hscored
    by (vm_compute; repeat constructor).
  assert (atlasScored
          ∉ getPersonalizedRecommendations midnight fantasyReader shelf shelf 10)
    as Hout.
  { intros Hlast. vm_compute in Hlast.
    repeat (apply elem_of_cons in Hlast as [Hlast|Hlast]; [discriminate Hlast|]).
    by apply elem_of_nil in Hlast. }
  split_and!; [exact Hin | exact Hscored | exact Hout |].
  exact (proj2 (personalized_keeps_the_best fantasyReader shelf midnight shelf 10)
           dongengScored atlasScored Hin Hscored Hout).
Defined.

Lemma bookPopularity_lookup_witness :
  NoDup (id <$> datedCatalog) ∧
  ∀ book, book ∈ datedCatalog →
    bookPopularity datedCatalog !! id book = Some (default 0%Q (view_count book)).
Proof.
  assert (NoDup (id <$> datedCatalog)) as Hnodup.
  { apply (bool_decide_unpack (NoDup (id <$> datedCatalog))). vm_compute. exact I. }
  split; [exact Hnodup|].
  exact (proj2 (proj2 (bookPopularity_lookup datedCatalog)) Hnodup).
Defined.

Lemma datedCatalog_views_nonneg :
  ∀ other, other ∈ datedCatalog → (0 <= default 0 (view_count other))%Q.
Proof.
  apply Forall_forall. repeat constructor; discriminate.
Defined.

Lemma normalized_popularity_unit_witness :
  (∀ other, other ∈ datedCatalog → (0 <= default 0 (view_count other))%Q) ∧
  (default 0 (bookPopularity datedCatalog !! id bumi) / maxPopularity datedCatalog <= 1)%Q.
Proof.
  split; [exact datedCatalog_views_nonneg|].
  exact (proj2 (proj2 (normalized_popularity_unit datedCatalog bumi
                         datedCatalog_views_nonneg))).
Defined.

Lemma recency_bonus_decays_witness :
  created_at bumi = Some 0%Z ∧
  ∀ now, (0 + msPerYear ≤ now)%Z →
    (scoreBook fantasyReader datedCatalog now bumi
     == scoreBook fantasyReader datedCatalog now (undated bumi))%Q.
Proof.
  split; [reflexivity|].
  exact (proj1 (proj2 (proj2 (proj2
           (recency_bonus_decays fantasyReader datedCatalog bumi 0 eq_refl))))).
Defined.

Lemma personalized_scores_unit_witness :
  map_Forall (λ _ views, (0 <= views)%Q) fantasyReader ∧
  (∀ other, other ∈ datedCatalog → (0 <= default 0 (view_count other))%Q) ∧
  (∀ book, book ∈ datedCatalog → NoDup (bookLabels book)) ∧
  (∀ book c k, book ∈ datedCatalog → created_at book = Some c → (c ≤ midnight k)%Z) ∧
  {| bws_book := bumi; similarity := scoreBook fantasyReader datedCatalog 0 bumi |}
  ∈ getPersonalizedRecommendations midnight fantasyReader datedCatalog datedCatalog 15 ∧
  (scoreBook fantasyReader datedCatalog 0 bumi <= 1)%Q.
Proof.
  assert (map_Forall (λ _ views, (0 <= views)%Q) fantasyReader) as Hprofile.
  { apply map_Forall_singleton. discriminate. }
  assert (∀ book, book ∈ datedCatalog → NoDup (bookLabels book)) as Hlabels.
  { apply Forall_forall. repeat constructor; vm_compute.
    - repeat constructor; by intros ?%elem_of_nil.
    - repeat constructor; by intros ?%elem_of_nil. }
  assert (∀ book c k, book ∈ datedCatalog → created_at book = Some c →
                      (c ≤ midnight k)%Z) as Hpast.
  { intros book c k Hbook.
    repeat (apply elem_of_cons in Hbook as [->|Hbook]; [by intros [= <-]|]).
    by apply elem_of_nil in Hbook. }
  assert ({| bws_book := bumi; similarity := scoreBook fantasyReader datedCatalog 0 bumi |}
          ∈ getPersonalizedRecommendations midnight fantasyReader
              datedCatalog datedCatalog 15) as Hin
    by (vm_compute; repeat constructor).
  split_and!; [exact Hprofile | exact datedCatalog_views_nonneg | exact Hlabels
              | exact Hpast | exact Hin |].
  exact (proj2 (personalized_scores_unit fantasyReader datedCatalog Hprofile
                  datedCatalog_views_nonneg midnight datedCatalog 15 _
                  Hlabels Hpast Hin)).
Defined.

Lemma personal_recommendations_are_new_witness :
  pemimpiScored ∈ personalRecommendations midnight laskarViews [] catalog ∧
  laskarEntry ∈ laskarViews ∧
  laskarViews ≠ [] ∧
  id (bws_book pemimpiScored) ≠ book_id laskarEntry ∧
  length (personalRecommendations midnight laskarViews [] catalog)
  = Nat.min (length (candidateBooksOf laskarViews (withViewCount <$> catalog))) 15.
Proof.
  assert (pemimpiScored ∈ personalRecommendations midnight laskarViews [] catalog) as Hr
    by (vm_compute; repeat constructor).
  assert (laskarEntry ∈ laskarViews) as Hentry by left.
  assert (laskarViews ≠ []) as Hhistory by discriminate.
  destruct (personal_recommendations_are_new midnight laskarViews [] catalog)
    as [Hnew Hsize].
  split_and!; [exact Hr | exact Hentry | exact Hhistory | |].
  - exact (Hnew pemimpiScored laskarEntry Hr Hentry).
  - exact (proj1 (Hsize Hhistory)).
Defined.

Lemma recommendByTitle_reports_target_witness :
  recommendByTitle noTerms zeroSimilarity (Some "atlas") catalog
  = Recommendations (Some atlas)
      (getRecommendations noTerms zeroSimilarity atlas catalog 10) ∧
  ∃ query target,
    Some "atlas" = Some query ∧ query ≠ EmptyString ∧
    Some atlas = Some target ∧
    find (title_matches query) catalog = Some target ∧
    target ∈ catalog ∧ contains_ci (title target) query ∧
    getRecommendations noTerms zeroSimilarity atlas catalog 10
    = getRecommendations noTerms zeroSimilarity target catalog 10 ∧
    (1 ≤ length (getRecommendations noTerms zeroSimilarity atlas catalog 10) ≤ 10)%nat.
Proof.
  assert (recommendByTitle noTerms zeroSimilarity (Some "atlas") catalog
          = Recommendations (Some atlas)
              (getRecommendations noTerms zeroSimilarity atlas catalog 10)) as Hanswer
    by (vm_compute; reflexivity).
  split; [exact Hanswer|].
  exact (recommendByTitle_reports_target noTerms zeroSimilarity _ _ _ _ Hanswer).
Defined.

End MoreSamples.
